(** * Amortization schedules and day-weighted interest accrual

    A shallow embedding of [zad7.py] (the two amortization-schedule
    builders and [calculate_effective_rate]), of [zestaw1/zad1.py]
    ([calculate_monthly_interest]) and of the script [zadanie8.py].

    The Python functions are written against the numeric tower: they only
    use [+], [-], [*], [/], a comparison with [0], [math.pow], [**] and
    the conversion of an [int] operand.  The embedding keeps that shape: the
    algorithms are written once over a [Number] interface.

    The scripts call them on floats, whose operations round to binary64;
    the spec states its identities "up to floating-point tolerance".
    Accordingly there are two kinds of statements here.  What is proved
    for every [Number] instance (the shape of a schedule, the recurrence
    between its rows, the order in which transactions are met, what does
    not depend on insertion order) holds in whatever arithmetic the
    operations implement, rounding included.  The algebraic identities (a
    balance that reaches zero, portions that sum to the principal, a
    closing balance that is a sum) are identities of exact arithmetic and
    are proved for the instance over [Q], where no operation rounds; the
    size of the rounding error of binary64 is not part of this
    development. *)

From Stdlib Require Import ZArith QArith Qabs Qpower Qfield List Bool Lia Lqa.
From Stdlib Require Import Permutation Sorted.
From Stdlib Require Import Floats.
Import ListNotations.

Set Implicit Arguments.

(** ** Python exceptions and the error monad *)

(** The exceptions arithmetic can raise: [/] by zero, and the domain and
    range errors of [math.pow]. *)
Inductive exn : Set :=
| ZeroDivisionError
| ValueError
| OverflowError.

Inductive result (T : Type) : Type :=
| Ok (v : T)
| Raise (e : exn).

Arguments Ok {T} v.
Arguments Raise {T} e.

Definition bind {T U : Type} (c : result T) (k : T -> result U) : result U :=
  match c with
  | Ok v => k v
  | Raise e => Raise e
  end.

Notation "x <- c1 ;; c2" := (bind c1 (fun x => c2))
  (at level 61, c1 at next level, right associativity).

(** ** The numeric interface

    [of_int] is the implicit conversion of an [int] operand, [truediv] is
    [/] (it raises [ZeroDivisionError] on a zero divisor), [gt] is [>] and
    [math_pow x n] is [math.pow(x, n)] for an [int] exponent. *)

Class Number (A : Type) : Type := {
  of_int : Z -> A;
  add : A -> A -> A;
  sub : A -> A -> A;
  mul : A -> A -> A;
  truediv : A -> A -> result A;
  gt : A -> A -> bool;
  math_pow : A -> Z -> result A
}.

(** [range(lo, hi)] *)
Definition range (lo hi : Z) : list Z :=
  map (fun i => (lo + Z.of_nat i)%Z) (seq 0 (Z.to_nat (hi - lo))).

(** ** zad7.py: amortization schedules *)

Module zad7.
Section Schedules.
Context {A : Type} `{Number A}.

(** One dictionary appended to [schedule]. *)
Record row : Type := {
  period : Z;
  initial_principal : A;
  total_payment : A;
  interest_payment : A;
  principal_payment : A
}.

(** The variables the [for] loops update. *)
Record loop_state : Type := {
  schedule : list row;
  total_interest : A;
  current_principal : A
}.

(** [schedule = []], [total_interest = 0], [current_principal = P] *)
Definition loop_init (P : A) : loop_state :=
  {| schedule := []; total_interest := of_int 0; current_principal := P |}.

(** Body of the loop of [calculate_constant_principal_schedule]. *)
Definition constant_principal_body (r_p pp : A) (st : loop_state) (k : Z)
  : loop_state :=
  let ip := mul (current_principal st) r_p in
  let tp := add pp ip in
  {| schedule := schedule st ++
       [ {| period := k;
            initial_principal := current_principal st;
            total_payment := tp;
            interest_payment := ip;
            principal_payment := pp |} ];
     total_interest := add (total_interest st) ip;
     current_principal := sub (current_principal st) pp |}.

Definition calculate_constant_principal_schedule
    (P r_pa : A) (T_years n_per_year : Z) : result (list row * A) :=
  r_p <- truediv r_pa (of_int n_per_year) ;;
  let N := (T_years * n_per_year)%Z in
  pp <- truediv P (of_int N) ;;
  let st := fold_left (constant_principal_body r_p pp)
                      (range 1 (N + 1)) (loop_init P) in
  Ok (schedule st, total_interest st).

(** [P * (r_p / (1 - math.pow(1 + r_p, -N)))] *)
Definition pva_payment (P r_p : A) (N : Z) : result A :=
  pw <- math_pow (add (of_int 1) r_p) (- N) ;;
  q <- truediv r_p (sub (of_int 1) pw) ;;
  Ok (mul P q).

(** Body of the loop of [calculate_annuity_schedule]. *)
Definition annuity_body (r_p tp : A) (st : loop_state) (k : Z)
  : loop_state :=
  let ip := mul (current_principal st) r_p in
  let pp := sub tp ip in
  {| schedule := schedule st ++
       [ {| period := k;
            initial_principal := current_principal st;
            total_payment := tp;
            interest_payment := ip;
            principal_payment := pp |} ];
     total_interest := add (total_interest st) ip;
     current_principal := sub (current_principal st) pp |}.

Definition calculate_annuity_schedule
    (P r_pa : A) (T_years n_per_year : Z) : result (list row * A) :=
  r_p <- truediv r_pa (of_int n_per_year) ;;
  let N := (T_years * n_per_year)%Z in
  tp <- (if gt r_p (of_int 0) then pva_payment P r_p N
         else truediv P (of_int N)) ;;
  let st := fold_left (annuity_body r_p tp)
                      (range 1 (N + 1)) (loop_init P) in
  Ok (schedule st, total_interest st).

(** [y = math.pow(1 + r_pa / n_per_year, n_per_year) - 1] *)
Definition calculate_effective_rate (r_pa : A) (n_per_year : Z) : result A :=
  r <- truediv r_pa (of_int n_per_year) ;;
  pw <- math_pow (add (of_int 1) r) n_per_year ;;
  Ok (sub pw (of_int 1)).

End Schedules.

Arguments row A : clear implicits.
Arguments loop_state A : clear implicits.
End zad7.

(** ** zestaw1/zad1.py: interest on a fluctuating balance *)

Module zad1.
Section Accrual.
Context {A : Type} `{Number A}.

(** A [dict] with [int] keys, as the list of its items in insertion
    order; a well-formed one has no repeated key. *)
Definition dict : Type := list (Z * A).

Definition keys (d : dict) : list Z := map fst d.

(** [d[k] = v]: an existing key keeps its place, a new one goes last. *)
Fixpoint dict_set (k : Z) (v : A) (d : dict) : dict :=
  match d with
  | [] => [(k, v)]
  | (k', v') :: d' =>
      if (k' =? k)%Z then (k', v) :: d' else (k', v') :: dict_set k v d'
  end.

(** [dict(items)] *)
Definition dict_of_items (items : list (Z * A)) : dict :=
  fold_left (fun d e => dict_set (fst e) (snd e) d) items [].

(** [sorted(d.items())]: the items of a dict differ in their keys, so the
    comparison of two [(day, amount)] tuples is the comparison of their
    days. *)
Fixpoint insert_item (e : Z * A) (l : list (Z * A)) : list (Z * A) :=
  match l with
  | [] => [e]
  | e' :: l' =>
      if (fst e <=? fst e')%Z then e :: l else e' :: insert_item e l'
  end.

Definition sorted (items : list (Z * A)) : list (Z * A) :=
  fold_right insert_item [] items.

(** The variables the [for] loop updates. *)
Record loop_state : Type := {
  total_interest : A;
  current_balance : A;
  processed_through_day : Z
}.

(** [total_interest = 0.0], [current_balance = start_balance],
    [processed_through_day = 0]; the literal [0.0] is the number zero. *)
Definition loop_init (start_balance : A) : loop_state :=
  {| total_interest := of_int 0;
     current_balance := start_balance;
     processed_through_day := 0 |}.

(** Body of the loop over [sorted_transactions.items()]. *)
Definition accrue_body (daily_rate : A) (st : loop_state) (e : Z * A)
  : loop_state :=
  let (day, amount) := e in
  let num_days := (day - 1 - processed_through_day st)%Z in
  {| total_interest :=
       if (num_days >? 0)%Z
       then add (total_interest st)
                (mul (mul (current_balance st) daily_rate) (of_int num_days))
       else total_interest st;
     current_balance := add (current_balance st) amount;
     processed_through_day := (day - 1)%Z |}.

(** The dict the loop iterates over: the sorted copy with the
    zero-amount entry stored under [days_in_month + 1]. *)
Definition sorted_transactions (transactions : dict) (days_in_month : Z)
  : dict :=
  dict_set (days_in_month + 1) (of_int 0)
           (dict_of_items (sorted transactions)).

Definition calculate_monthly_interest
    (start_balance : A) (transactions : dict) (days_in_month : Z)
    (annual_rate : A) : result (A * A) :=
  daily_rate <- truediv annual_rate (of_int 365) ;;
  let st := fold_left (accrue_body daily_rate)
                      (sorted_transactions transactions days_in_month)
                      (loop_init start_balance) in
  let closing_balance := add (current_balance st) (total_interest st) in
  Ok (total_interest st, closing_balance).

End Accrual.

Arguments dict A : clear implicits.
Arguments loop_state A : clear implicits.
End zad1.

(** ** Exact arithmetic: the instance over [Q]

    [math.pow(0, n)] with [n < 0] is a domain error; exact arithmetic
    has no range error. *)

Definition Q_truediv (a b : Q) : result Q :=
  if Qeq_bool b 0 then Raise ZeroDivisionError else Ok (a / b).

Definition Q_math_pow (x : Q) (n : Z) : result Q :=
  if Qeq_bool x 0 && (n <? 0)%Z then Raise ValueError else Ok (x ^ n).

#[export] Instance Q_Number : Number Q := {|
  of_int := inject_Z;
  add := Qplus;
  sub := Qminus;
  mul := Qmult;
  truediv := Q_truediv;
  gt := fun a b => negb (Qle_bool a b);
  math_pow := Q_math_pow
|}.

(** ** Binary64: the instance over [float]

    The scripts run on Python floats, IEEE 754 binary64 with rounding to
    nearest even: [+], [-], [*] and [/] are the primitive operations of
    [PrimFloat], [/] raising [ZeroDivisionError] on a zero divisor of
    either sign, and an [int] operand is converted to the nearest float.
    (Python refuses an [int] beyond the range of binary64 with an
    [OverflowError]; here it converts to infinity.)

    [math.pow] is the C library's [pow], whose result Python turns into
    an error when it is infinite for finite arguments: a domain error
    ([ValueError]) for a zero base, a range error ([OverflowError])
    otherwise.  The C standard fixes [pow] at special arguments only
    ([pow(1, y) = 1], [pow(x, 0) = 1], zeros and infinities); elsewhere
    [B64_power] is the correctly rounded power, which the C library's
    result equals on all but rare arguments and is within one unit in
    the last place of. *)

Definition B64_of_int (z : Z) : float :=
  SF2Prim (binary_normalize prec emax z 0 false).

Definition B64_truediv (a b : float) : result float :=
  if PrimFloat.is_zero b then Raise ZeroDivisionError
  else Ok (PrimFloat.div a b).

Definition B64_power (x : float) (n : Z) : float :=
  if (n =? 0)%Z then PrimFloat.one
  else if PrimFloat.eqb x PrimFloat.one then PrimFloat.one
  else
    let negative (s : bool) := s && Z.odd n in
    match Prim2SF x with
    | S754_finite s m e =>
        let mk := Pos.pow m (Z.to_pos (Z.abs n)) in
        let ek := (e * Z.abs n)%Z in
        if (0 <? n)%Z
        then SF2Prim (binary_normalize prec emax
                        (if negative s then Z.neg mk else Z.pos mk) ek false)
        else SF2Prim (SFdiv prec emax (S754_finite false 1 0)
                        (S754_finite (negative s) mk ek))
    | S754_zero s =>
        if (0 <? n)%Z
        then (if negative s then PrimFloat.neg_zero else PrimFloat.zero)
        else (if negative s then PrimFloat.neg_infinity
              else PrimFloat.infinity)
    | S754_infinity s =>
        if (0 <? n)%Z
        then (if negative s then PrimFloat.neg_infinity
              else PrimFloat.infinity)
        else (if negative s then PrimFloat.neg_zero else PrimFloat.zero)
    | S754_nan => PrimFloat.nan
    end.

Definition B64_math_pow (x : float) (n : Z) : result float :=
  let r := B64_power x n in
  if PrimFloat.is_finite x && PrimFloat.is_infinity r
  then Raise (if PrimFloat.is_zero x then ValueError else OverflowError)
  else Ok r.

#[export] Instance B64_Number : Number float := {|
  of_int := B64_of_int;
  add := PrimFloat.add;
  sub := PrimFloat.sub;
  mul := PrimFloat.mul;
  truediv := B64_truediv;
  gt := fun a b => PrimFloat.ltb b a;
  math_pow := B64_math_pow
|}.

(** The number a float stands for; an infinity or a NaN stands for none
    and is sent to 0. *)
Definition B64_to_Q (x : float) : Q :=
  match Prim2SF x with
  | S754_finite s m e =>
      inject_Z (if s then Z.neg m else Z.pos m) * 2 ^ e
  | _ => 0
  end.

(** ** zadanie8.py: a mortgage whose rate changes after [k] payments

    The script works on module-level variables; here each of its three
    formulas is a function of the variables it reads, and [script] is the
    script from its constants to the three figures it prints (before
    [round]).  [x ** n] differs from [math.pow]: a zero base with a
    negative exponent is a [ZeroDivisionError]. *)

Class Power (A : Type) : Type := pow : A -> Z -> result A.

Definition Q_pow (x : Q) (n : Z) : result Q :=
  if Qeq_bool x 0 && (n <? 0)%Z then Raise ZeroDivisionError else Ok (x ^ n).

#[export] Instance Q_Power : Power Q := Q_pow.

(** On floats [**] is the C library's [pow] as well; an infinite result
    for finite arguments is an [OverflowError]. *)
Definition B64_pow (x : float) (n : Z) : result float :=
  if PrimFloat.is_zero x && (n <? 0)%Z then Raise ZeroDivisionError
  else
    let r := B64_power x n in
    if PrimFloat.is_finite x && PrimFloat.is_infinity r
    then Raise OverflowError
    else Ok r.

#[export] Instance B64_Power : Power float := B64_pow.

Module zadanie8.
Section Mortgage.
Context {A : Type} `{Number A} `{Power A}.

(** [P * r / (1 - (1 + r) ** (-n))] *)
Definition monthly_payment (P r : A) (n : Z) : result A :=
  pw <- pow (add (of_int 1) r) (- n) ;;
  truediv (mul P r) (sub (of_int 1) pw).

(** [P * (1 + r) ** k - A * (((1 + r) ** k - 1) / r)] *)
Definition balance_after (P r payment : A) (k : Z) : result A :=
  pw <- pow (add (of_int 1) r) k ;;
  pw' <- pow (add (of_int 1) r) k ;;
  q <- truediv (sub pw' (of_int 1)) r ;;
  Ok (sub (mul P pw) (mul payment q)).

(** The script: the first payment, the balance after [k] payments and
    the payment after the change of rate. *)
Definition script (loan_amount : A) (years : Z) (annual_rate_initial : A)
    (k : Z) (annual_rate_new : A) : result (A * A * A) :=
  let months := (years * 12)%Z in
  monthly_rate_initial <- truediv annual_rate_initial (of_int 12) ;;
  monthly_payment_initial <-
    monthly_payment loan_amount monthly_rate_initial months ;;
  balance_after_3m <-
    balance_after loan_amount monthly_rate_initial monthly_payment_initial k ;;
  monthly_rate_new <- truediv annual_rate_new (of_int 12) ;;
  let remaining_months := (months - k)%Z in
  monthly_payment_new <-
    monthly_payment balance_after_3m monthly_rate_new remaining_months ;;
  Ok (monthly_payment_initial, balance_after_3m, monthly_payment_new).

End Mortgage.
End zadanie8.

(** ** The loops of zad7.py, unrolled

    Both loops append one row per period, built from the current
    principal, add its interest to the running total and subtract its
    principal portion from the current principal. *)

Section Unrolled.
Context {A : Type} `{Number A}.
Variable mk : A -> Z -> zad7.row A.

Definition push (st : zad7.loop_state A) (k : Z) : zad7.loop_state A :=
  let r := mk (zad7.current_principal st) k in
  {| zad7.schedule := zad7.schedule st ++ [r];
     zad7.total_interest :=
       add (zad7.total_interest st) (zad7.interest_payment r);
     zad7.current_principal :=
       sub (zad7.current_principal st) (zad7.principal_payment r) |}.

Fixpoint rows_from (cur : A) (ks : list Z) : list (zad7.row A) :=
  match ks with
  | [] => []
  | k :: ks' =>
      let r := mk cur k in
      r :: rows_from (sub cur (zad7.principal_payment r)) ks'
  end.

Fixpoint balance_after (cur : A) (ks : list Z) : A :=
  match ks with
  | [] => cur
  | k :: ks' => balance_after (sub cur (zad7.principal_payment (mk cur k))) ks'
  end.

End Unrolled.

(** The row of period [k] of each schedule, from the principal [cur]
    outstanding at its start. *)
Definition cp_row {A : Type} `{Number A} (r_p pp cur : A) (k : Z)
  : zad7.row A :=
  {| zad7.period := k;
     zad7.initial_principal := cur;
     zad7.total_payment := add pp (mul cur r_p);
     zad7.interest_payment := mul cur r_p;
     zad7.principal_payment := pp |}.

Definition an_row {A : Type} `{Number A} (r_p tp cur : A) (k : Z)
  : zad7.row A :=
  {| zad7.period := k;
     zad7.initial_principal := cur;
     zad7.total_payment := tp;
     zad7.interest_payment := mul cur r_p;
     zad7.principal_payment := sub tp (mul cur r_p) |}.

(** ** The invariants of a schedule (spec, section 3) *)



(** The balance the final row leaves: its opening principal minus its
    principal portion. *)
Definition successor_balance {A : Type} `{Number A} (s : list (zad7.row A))
  : option A :=
  match rev s with
  | [] => None
  | r :: _ => Some (sub (zad7.initial_principal r) (zad7.principal_payment r))
  end.


(** The running sum [t = 0; for x in l: t += x]. *)
Definition sum_of {A : Type} `{Number A} (l : list A) : A :=
  fold_left add l (of_int 0).

(** Rates near the resolution of binary64, as the floats the Python
    literals [1e-15], [1e-17] and [1e-16] denote. *)
Definition rate_1e_15 : float := 0x1.203af9ee75616p-50%float.
Definition rate_1e_17 : float := 0x1.70ef54646d497p-57%float.
Definition rate_1e_16 : float := 0x1.cd2b297d889bcp-54%float.

(** The constants of the driver of zad7.py, and what it gets back. *)
Definition P_LOAN : Q := 10000.
Definition R_NOMINAL : Q := 1 # 10.
Definition T_YEARS : Z := 1.
Definition N_PER_YEAR : Z := 4.

Definition returned_schedule {A : Type} (c : result (list (zad7.row A) * A))
  : list (zad7.row A) :=
  match c with
  | Ok (s, _) => s
  | Raise _ => []
  end.

Definition schedule1 : list (zad7.row Q) :=
  returned_schedule
    (zad7.calculate_constant_principal_schedule
       P_LOAN R_NOMINAL T_YEARS N_PER_YEAR).

Definition schedule2 : list (zad7.row Q) :=
  returned_schedule
    (zad7.calculate_annuity_schedule P_LOAN R_NOMINAL T_YEARS N_PER_YEAR).

(** The transactions of the driver of zad1.py. *)
Definition transactions_oct : zad1.dict Q :=
  [(5%Z, 17000); (12%Z, 35000); (21%Z, -55000)].

Definition transactions_nov : zad1.dict Q :=
  [(9%Z, -25000); (30%Z, 100000)].

(** A month with a transaction on its first and on its last day. *)
Definition transactions_first_last : zad1.dict Q :=
  [(30%Z, 100000); (1%Z, 500); (9%Z, -25000)].

(** A caller's mapping that already holds the key [days_in_month + 1]
    of a month of 30 days. *)
Definition transactions_past_end : zad1.dict Q :=
  [(31%Z, 700); (9%Z, -25000)].

(** ** Transactions of a month (spec, sections 3 and 4.2) *)

(** The mapping without the transaction of day [d]. *)
Definition without_day {A : Type} (d : Z) (t : zad1.dict A) : zad1.dict A :=
  filter (fun e => negb (fst e =? d)%Z) t.

(** Days in ascending order. *)
Definition ascending {A : Type} (t : zad1.dict A) : Prop :=
  StronglySorted (fun e e' => (fst e < fst e')%Z) t.

(** Day keys that are 1-based and inside the month. *)
Definition in_month {A : Type} (t : zad1.dict A) (days_in_month : Z) : Prop :=
  forall d, In d (zad1.keys t) -> (1 <= d <= days_in_month)%Z.

(** The sum of all transaction amounts. *)
Definition amounts_sum (t : zad1.dict Q) : Q :=
  fold_right (fun e acc => snd e + acc) 0 t.

(** The sub-periods between consecutive transaction days, each with the
    balance held during it and its number of days: from the cursor to
    the day before the next transaction, and after the last transaction
    to the end of the month. *)
Fixpoint subperiods (balance : Q) (cursor : Z) (t : zad1.dict Q)
    (days_in_month : Z) : list (Q * Z) :=
  match t with
  | [] => [(balance, (days_in_month - cursor)%Z)]
  | (day, amount) :: t' =>
      (balance, (day - 1 - cursor)%Z) ::
      subperiods (balance + amount) (day - 1) t' days_in_month
  end.

(** Balance times daily rate times number of days, summed over the
    sub-periods. *)
Definition subperiod_interest (daily_rate : Q) (sp : list (Q * Z)) : Q :=
  fold_right (fun bn acc => fst bn * daily_rate * inject_Z (snd bn) + acc)
             0 sp.

(** The total interest of the month as the spec words it. *)
Definition spec_total_interest (start_balance : Q) (t : zad1.dict Q)
    (days_in_month : Z) (annual_rate : Q) : Q :=
  subperiod_interest (annual_rate / 365)
    (subperiods start_balance 0 (zad1.sorted t) days_in_month).

(** The balance held on day [j]: the starting balance and every
    transaction dated on or before that day. *)
Definition balance_on (start_balance : Q) (t : zad1.dict Q) (j : Z) : Q :=
  start_balance + amounts_sum (filter (fun e => (fst e <=? j)%Z) t).

(** A sum over a list of days. *)
Definition sum_over (f : Z -> Q) (days : list Z) : Q :=
  fold_right (fun j acc => f j + acc) 0 days.

(** One day of interest on the balance held on each day of the month. *)
Definition day_weighted_interest (start_balance : Q) (t : zad1.dict Q)
    (days_in_month : Z) (annual_rate : Q) : Q :=
  sum_over (fun j => balance_on start_balance t j * (annual_rate / 365))
           (range 1 (days_in_month + 1)).

(** The days [calculate_monthly_interest] accrues interest for, whatever
    the day keys are: from [accrual_start] to the day before
    [accrual_end]. *)
Definition accrual_start {A : Type} (t : zad1.dict A) : Z :=
  fold_right Z.min 1%Z (zad1.keys t).

Definition accrual_end {A : Type} (t : zad1.dict A) (days_in_month : Z) : Z :=
  fold_right Z.max (days_in_month + 1)%Z (zad1.keys t).

(** A mapping with a day before the month and a day after it. *)
Definition transactions_outside : zad1.dict Q :=
  [(40%Z, 1000); (0%Z, 500); (12%Z, -200)].

(** The sum of a list of numbers, in exact arithmetic. *)
Definition Qsum (l : list Q) : Q := fold_right Qplus 0 l.

(* ================================================================= *)
(** * Structure of the schedules, for every number system *)

Section Structure.
Context {A : Type} `{Number A}.

Lemma range_length (lo hi : Z) : length (range lo hi) = Z.to_nat (hi - lo).
Proof. unfold range. now rewrite length_map, length_seq. Qed.

Lemma range_periods (N : Z) : length (range 1 (N + 1)) = Z.to_nat N.
Proof. rewrite range_length. f_equal. lia. Qed.


Lemma constant_principal_body_push (r_p pp : A) :
  zad7.constant_principal_body r_p pp = push (cp_row r_p pp).
Proof. reflexivity. Qed.

Lemma annuity_body_push (r_p tp : A) :
  zad7.annuity_body r_p tp = push (an_row r_p tp).
Proof. reflexivity. Qed.

Section Push.
Variable mk : A -> Z -> zad7.row A.

Lemma fold_push (ks : list Z) (st : zad7.loop_state A) :
  fold_left (push mk) ks st =
  {| zad7.schedule :=
       zad7.schedule st ++ rows_from mk (zad7.current_principal st) ks;
     zad7.total_interest :=
       fold_left add
         (map zad7.interest_payment
              (rows_from mk (zad7.current_principal st) ks))
         (zad7.total_interest st);
     zad7.current_principal :=
       balance_after mk (zad7.current_principal st) ks |}.
Proof.
  revert st. induction ks as [|k ks IH]; intros st; simpl.
  - rewrite app_nil_r. now destruct st.
  - rewrite IH. simpl. now rewrite <- app_assoc.
Qed.

Lemma rows_from_length (cur : A) (ks : list Z) :
  length (rows_from mk cur ks) = length ks.
Proof.
  revert cur. induction ks as [|k ks IH]; intros cur; simpl; congruence.
Qed.

Hypothesis mk_opening : forall cur k, zad7.initial_principal (mk cur k) = cur.




End Push.
End Structure.

(** The two builders, unrolled. *)
Section Builders.
Context {A : Type} `{Number A}.

Lemma constant_principal_unrolled (P r_pa : A) (T_years n_per_year : Z) :
  zad7.calculate_constant_principal_schedule P r_pa T_years n_per_year =
  (r_p <- truediv r_pa (of_int n_per_year) ;;
   pp <- truediv P (of_int (T_years * n_per_year)) ;;
   let s := rows_from (cp_row r_p pp) P
                      (range 1 (T_years * n_per_year + 1)) in
   Ok (s, sum_of (map zad7.interest_payment s))).
Proof.
  unfold zad7.calculate_constant_principal_schedule.
  destruct (truediv r_pa (of_int n_per_year)) as [r_p|]; [|reflexivity].
  simpl. destruct (truediv P _) as [pp|]; [|reflexivity]. simpl.
  now rewrite constant_principal_body_push, fold_push.
Qed.

Lemma annuity_unrolled (P r_pa : A) (T_years n_per_year : Z) :
  zad7.calculate_annuity_schedule P r_pa T_years n_per_year =
  (r_p <- truediv r_pa (of_int n_per_year) ;;
   tp <- (if gt r_p (of_int 0)
          then zad7.pva_payment P r_p (T_years * n_per_year)
          else truediv P (of_int (T_years * n_per_year))) ;;
   let s := rows_from (an_row r_p tp) P
                      (range 1 (T_years * n_per_year + 1)) in
   Ok (s, sum_of (map zad7.interest_payment s))).
Proof.
  unfold zad7.calculate_annuity_schedule.
  destruct (truediv r_pa (of_int n_per_year)) as [r_p|]; [|reflexivity].
  simpl. destruct (if gt r_p (of_int 0) then _ else _) as [tp|];
    [|reflexivity].
  simpl. now rewrite annuity_body_push, fold_push.
Qed.

(** Every principal portion of the equal-principal rows is [pp]. *)
Lemma cp_rows_principal (r_p pp cur : A) (ks : list Z) (r : zad7.row A) :
  In r (rows_from (cp_row r_p pp) cur ks) -> zad7.principal_payment r = pp.
Proof.
  revert cur. induction ks as [|k ks IH]; intros cur; simpl; [tauto|].
  intros [<-|Hin]; [reflexivity | eauto].
Qed.

(** Every total payment of the annuity rows is [tp]. *)
Lemma an_rows_payment (r_p tp cur : A) (ks : list Z) (r : zad7.row A) :
  In r (rows_from (an_row r_p tp) cur ks) -> zad7.total_payment r = tp.
Proof.
  revert cur. induction ks as [|k ks IH]; intros cur; simpl; [tauto|].
  intros [<-|Hin]; [reflexivity | eauto].
Qed.

(** The entries of a row, as the loop bodies compute them. *)
Lemma cp_rows_entries (r_p pp cur : A) (ks : list Z) (r : zad7.row A) :
  In r (rows_from (cp_row r_p pp) cur ks) ->
  zad7.interest_payment r = mul (zad7.initial_principal r) r_p /\
  zad7.total_payment r = add pp (zad7.interest_payment r).
Proof.
  revert cur. induction ks as [|k ks IH]; intros cur; simpl; [tauto|].
  intros [<-|Hin]; [split; reflexivity | eauto].
Qed.

Lemma an_rows_entries (r_p tp cur : A) (ks : list Z) (r : zad7.row A) :
  In r (rows_from (an_row r_p tp) cur ks) ->
  zad7.interest_payment r = mul (zad7.initial_principal r) r_p /\
  zad7.principal_payment r = sub tp (zad7.interest_payment r).
Proof.
  revert cur. induction ks as [|k ks IH]; intros cur; simpl; [tauto|].
  intros [<-|Hin]; [split; reflexivity | eauto].
Qed.





End Builders.

(* ================================================================= *)
(** * Exact arithmetic *)

(** Read the interface operations at [Q] as the operations of [Q]. *)
Ltac q_ops :=
  change (@of_int Q Q_Number) with inject_Z in *;
  change (@add Q Q_Number) with Qplus in *;
  change (@sub Q Q_Number) with Qminus in *;
  change (@mul Q Q_Number) with Qmult in *.

Lemma Q_truediv_ok (a b : Q) : ~ b == 0 -> truediv a b = Ok (a / b).
Proof.
  intros Hb. simpl. unfold Q_truediv.
  destruct (Qeq_bool b 0) eqn:E; [|reflexivity].
  apply Qeq_bool_eq in E. contradiction.
Qed.

Lemma Q_truediv_zero (a b : Q) :
  b == 0 -> truediv a b = Raise ZeroDivisionError.
Proof.
  intros Hb. simpl. unfold Q_truediv.
  now rewrite (proj2 (Qeq_bool_iff b 0) Hb).
Qed.

Lemma Q_gt_true (a b : Q) : b < a -> gt a b = true.
Proof.
  intros Hlt. simpl. destruct (Qle_bool a b) eqn:E; [|reflexivity].
  apply Qle_bool_iff in E. lra.
Qed.

Lemma Q_gt_false (a b : Q) : a <= b -> gt a b = false.
Proof.
  intros Hle. simpl. now rewrite (proj2 (Qle_bool_iff a b) Hle).
Qed.

Lemma Q_math_pow_ok (x : Q) (n : Z) : ~ x == 0 -> math_pow x n = Ok (x ^ n).
Proof.
  intros Hx. simpl. unfold Q_math_pow.
  destruct (Qeq_bool x 0) eqn:E; [|reflexivity].
  apply Qeq_bool_eq in E. contradiction.
Qed.

Lemma inject_Z_nonzero (z : Z) : z <> 0%Z -> ~ inject_Z z == 0.
Proof.
  intros Hz E. apply Hz. unfold Qeq in E. simpl in E. lia.
Qed.

Lemma inject_Z_succ (n : nat) :
  inject_Z (Z.of_nat (S n)) == inject_Z (Z.of_nat n) + 1.
Proof. rewrite Nat2Z.inj_succ, <- Z.add_1_r, inject_Z_plus. reflexivity. Qed.

Lemma Qpower_succ (q : Q) (n : nat) :
  q ^ Z.of_nat (S n) == q * q ^ Z.of_nat n.
Proof.
  rewrite Nat2Z.inj_succ, <- Z.add_1_l, Qpower_plus' by lia. reflexivity.
Qed.



(** Balance left by the annuity loop, in closed form (times [r_p]). *)
Lemma an_balance_after (r_p tp cur : Q) (ks : list Z) :
  balance_after (an_row r_p tp) cur ks * r_p ==
  cur * r_p * (1 + r_p) ^ Z.of_nat (length ks)
  - tp * ((1 + r_p) ^ Z.of_nat (length ks) - 1).
Proof.
  revert cur. induction ks as [|k ks IH]; intros cur.
  - simpl. ring.
  - change (balance_after (an_row r_p tp) cur (k :: ks))
      with (balance_after (an_row r_p tp) (cur - (tp - cur * r_p)) ks).
    rewrite IH. change (length (k :: ks)) with (S (length ks)).
    rewrite Qpower_succ. ring.
Qed.

(** [sum] of a list whose entries all equal [c]. *)
Lemma Q_fold_add_const (l : list Q) (acc c : Q) :
  (forall x, In x l -> x == c) ->
  fold_left add l acc == acc + inject_Z (Z.of_nat (length l)) * c.
Proof.
  revert acc. induction l as [|x l IH]; intros acc Hc.
  - simpl. ring.
  - change (fold_left add (x :: l) acc) with (fold_left add l (acc + x)).
    rewrite IH by (intros y Hy; apply Hc; now right).
    change (length (x :: l)) with (S (length l)).
    rewrite inject_Z_succ, (Hc x) by now left. ring.
Qed.

Lemma periods_count (N : Z) :
  (0 <= N)%Z -> Z.of_nat (length (range 1 (N + 1))) = N.
Proof. intros HN. rewrite range_periods. lia. Qed.


(** The equal-principal builder on a valid input. *)
Lemma constant_principal_valid (P r_pa : Q) (T_years n_per_year : Z) :
  T_years <> 0%Z -> n_per_year <> 0%Z ->
  zad7.calculate_constant_principal_schedule P r_pa T_years n_per_year =
  let s := rows_from (cp_row (r_pa / inject_Z n_per_year)
                             (P / inject_Z (T_years * n_per_year)))
                     P (range 1 (T_years * n_per_year + 1)) in
  Ok (s, sum_of (map zad7.interest_payment s)).
Proof.
  intros HT Hn. rewrite constant_principal_unrolled.
  rewrite (Q_truediv_ok r_pa) by (apply inject_Z_nonzero; lia).
  cbn [bind].
  rewrite (Q_truediv_ok P) by (apply inject_Z_nonzero; lia).
  reflexivity.
Qed.

(** The annuity payment at a positive periodic rate. *)
Lemma pva_payment_valid (P r_p : Q) (N : Z) :
  0 < r_p -> N <> 0%Z ->
  ~ 1 - (1 + r_p) ^ (- N) == 0 /\
  zad7.pva_payment P r_p N = Ok (P * (r_p / (1 - (1 + r_p) ^ (- N)))).
Proof.
  intros Hr HN.
  assert (Hq : 1 < 1 + r_p) by lra.
  assert (Hne : ~ 1 - (1 + r_p) ^ (- N) == 0).
  { destruct (Z.lt_trichotomy N 0) as [Hneg|[->|Hpos]]; [|lia|].
    - pose proof (Qpower_1_lt (1 + r_p) (- N) Hq ltac:(lia)). lra.
    - pose proof (Qpower_1_lt (1 + r_p) N Hq Hpos) as HX.
      rewrite Qpower_opp.
      assert (/ (1 + r_p) ^ N < 1) by (apply Qlt_shift_inv_r; lra).
      lra. }
  split; [exact Hne|].
  unfold zad7.pva_payment.
  change (add (of_int 1) r_p) with (1 + r_p).
  rewrite Q_math_pow_ok by lra. cbn [bind].
  change (sub (of_int 1) ((1 + r_p) ^ (- N))) with (1 - (1 + r_p) ^ (- N)).
  now rewrite Q_truediv_ok.
Qed.

(** The annuity loop pays the loan off exactly. *)
Lemma annuity_pays_off (P r_p : Q) (N : Z) :
  0 < r_p -> (0 < N)%Z ->
  balance_after (an_row r_p (P * (r_p / (1 - (1 + r_p) ^ (- N)))))
                P (range 1 (N + 1)) == 0.
Proof.
  intros Hr HN.
  destruct (pva_payment_valid P Hr (N := N) ltac:(lia)) as [Hne _].
  set (tp := P * (r_p / (1 - (1 + r_p) ^ (- N)))) in *.
  pose proof (an_balance_after r_p tp P (range 1 (N + 1))) as Hb.
  rewrite periods_count in Hb by lia.
  assert (HX : 1 < (1 + r_p) ^ N) by (apply Qpower_1_lt; [lra | lia]).
  assert (Hz : balance_after (an_row r_p tp) P (range 1 (N + 1)) * r_p == 0).
  { rewrite Hb. subst tp. rewrite Qpower_opp in *.
    set (X := (1 + r_p) ^ N) in *.
    field. split; lra. }
  apply Qmult_integral in Hz. destruct Hz as [Hz|Hz]; [exact Hz | lra].
Qed.


Lemma periodic_rate_zero (r_pa : Q) (n : Z) :
  r_pa == 0 -> r_pa / inject_Z n == 0.
Proof. intros ->. unfold Qdiv. ring. Qed.

(** The annuity builder at a positive periodic rate. *)
Lemma annuity_valid_pos (P r_pa : Q) (T_years n_per_year : Z) :
  0 < r_pa / inject_Z n_per_year -> T_years <> 0%Z -> n_per_year <> 0%Z ->
  zad7.calculate_annuity_schedule P r_pa T_years n_per_year =
  let r_p := r_pa / inject_Z n_per_year in
  let N := (T_years * n_per_year)%Z in
  let s := rows_from (an_row r_p (P * (r_p / (1 - (1 + r_p) ^ (- N)))))
                     P (range 1 (N + 1)) in
  Ok (s, sum_of (map zad7.interest_payment s)).
Proof.
  intros Hrp HT Hn. rewrite annuity_unrolled.
  rewrite (Q_truediv_ok r_pa) by (apply inject_Z_nonzero; lia).
  cbn [bind]. rewrite Q_gt_true by exact Hrp. q_ops.
  destruct (pva_payment_valid P Hrp (N := T_years * n_per_year) ltac:(lia))
    as [_ ->].
  reflexivity.
Qed.

(** The annuity builder at a rate that is not positive: the degenerate
    branch. *)
Lemma annuity_valid_degenerate (P r_pa : Q) (T_years n_per_year : Z) :
  r_pa / inject_Z n_per_year <= 0 -> T_years <> 0%Z -> n_per_year <> 0%Z ->
  zad7.calculate_annuity_schedule P r_pa T_years n_per_year =
  let r_p := r_pa / inject_Z n_per_year in
  let N := (T_years * n_per_year)%Z in
  let s := rows_from (an_row r_p (P / inject_Z N)) P (range 1 (N + 1)) in
  Ok (s, sum_of (map zad7.interest_payment s)).
Proof.
  intros Hr HT Hn. rewrite annuity_unrolled.
  rewrite (Q_truediv_ok r_pa) by (apply inject_Z_nonzero; lia).
  cbn [bind]. rewrite Q_gt_false by exact Hr.
  rewrite (Q_truediv_ok P) by (apply inject_Z_nonzero; lia).
  reflexivity.
Qed.


(* ================================================================= *)
(** * The properties of zad7.py (spec, sections 3, 4.1 and 8) *)





(** C1 as the spec states it fails in binary64 on valid input.  At the
    rate 1e-15 (one year, one period, 10000 borrowed) the annuity builder
    returns a one-row schedule whose row leaves a balance above 992: the
    divisor [1 - pow(1 + r_p, -1)] has lost all but a few bits.  At the
    rate 1e-17, [1 + r_p] rounds to 1, the divisor is zero and the
    builder raises [ZeroDivisionError]. *)
Lemma C1_binary64_annuity_fails :
  (exists s ti b,
      zad7.calculate_annuity_schedule 10000%float rate_1e_15 1 1
      = Ok (s, ti) /\
      successor_balance s = Some b /\
      992 < B64_to_Q b) /\
  zad7.calculate_annuity_schedule 10000%float rate_1e_17 1 1
  = Raise ZeroDivisionError.
Proof.
  split.
  - eexists _, _, _. split; [vm_compute; reflexivity|].
    split; [vm_compute; reflexivity|]. vm_compute. reflexivity.
  - vm_compute. reflexivity.
Qed.



(** C2 as the spec states it fails in binary64 on valid input: for a
    principal of 5e8 over 360 periods the running sum of the 360
    principal portions is more than 1e-6 away from the principal. *)
Lemma C2_binary64_sum_beyond_tolerance :
  exists s ti,
    zad7.calculate_constant_principal_schedule
      500000000%float 0.125%float 30 12
    = Ok (s, ti) /\
    (1 # 1000000)
    < Qabs (B64_to_Q (sum_of (map zad7.principal_payment s)) - 500000000).
Proof.
  eexists _, _. split; [vm_compute; reflexivity|].
  vm_compute. reflexivity.
Qed.

(** Interest portions at a zero periodic rate. *)
Lemma cp_rows_interest_zero (r_p pp cur : Q) (ks : list Z) (r : zad7.row Q) :
  r_p == 0 ->
  In r (rows_from (cp_row r_p pp) cur ks) -> zad7.interest_payment r == 0.
Proof.
  intros Hr. revert cur. induction ks as [|k ks IH]; intros cur; simpl;
    [tauto|].
  intros [<-|Hin]; [|eauto]. simpl. rewrite Hr. ring.
Qed.

Lemma an_rows_interest_zero (r_p tp cur : Q) (ks : list Z) (r : zad7.row Q) :
  r_p == 0 ->
  In r (rows_from (an_row r_p tp) cur ks) -> zad7.interest_payment r == 0.
Proof.
  intros Hr. revert cur. induction ks as [|k ks IH]; intros cur; simpl;
    [tauto|].
  intros [<-|Hin]; [|eauto]. simpl. rewrite Hr. ring.
Qed.

Lemma sum_of_zero (l : list Q) : (forall x, In x l -> x == 0) -> sum_of l == 0.
Proof.
  intros Hl. unfold sum_of. rewrite Q_fold_add_const with (c := 0) by exact Hl.
  q_ops. ring.
Qed.

(** At a zero periodic rate the annuity division is a division by zero. *)
Lemma pva_payment_zero_rate (P r_p : Q) (N : Z) :
  r_p == 0 -> zad7.pva_payment P r_p N = Raise ZeroDivisionError.
Proof.
  intros Hr. unfold zad7.pva_payment. q_ops.
  rewrite Q_math_pow_ok by (rewrite Hr; discriminate). cbn [bind].
  rewrite Q_truediv_zero; [reflexivity|].
  q_ops. rewrite Hr. setoid_replace (1 + 0) with 1 by ring.
  rewrite Qpower_1. ring.
Qed.

(** C6.  With a zero nominal annual rate both builders return total
    interest 0; every row of the annuity schedule has total payment
    [P / N], from the degenerate branch: the test [r_p > 0] fails, and the
    annuity division, which would divide by zero, is not evaluated. *)
Theorem C6_zero_rate (P r_pa : Q) (T_years n_per_year : Z) :
  0 < P -> r_pa == 0 -> (0 < T_years)%Z -> (0 < n_per_year)%Z ->
  (exists s ti,
      zad7.calculate_constant_principal_schedule P r_pa T_years n_per_year
      = Ok (s, ti) /\ ti == 0) /\
  (exists s ti,
      zad7.calculate_annuity_schedule P r_pa T_years n_per_year
      = Ok (s, ti) /\ ti == 0 /\
      Z.of_nat (length s) = (T_years * n_per_year)%Z /\
      forall r, In r s ->
        zad7.total_payment r = P / inject_Z (T_years * n_per_year)) /\
  (exists r_p,
      truediv r_pa (of_int n_per_year) = Ok r_p /\
      gt r_p (of_int 0) = false /\
      zad7.pva_payment P r_p (T_years * n_per_year)
      = Raise ZeroDivisionError).
Proof.
  intros HP Hr HT Hn.
  assert (Hr0 : r_pa / inject_Z n_per_year == 0)
    by now apply periodic_rate_zero.
  split; [|split].
  - rewrite constant_principal_valid by lia. cbv zeta.
    eexists _, _. split; [reflexivity|].
    apply sum_of_zero. intros x Hx.
    apply in_map_iff in Hx. destruct Hx as (r & <- & Hin).
    now apply cp_rows_interest_zero in Hin.
  - rewrite annuity_valid_degenerate by (lra || lia). cbv zeta.
    eexists _, _. split; [reflexivity|]. split; [|split].
    + apply sum_of_zero. intros x Hx.
      apply in_map_iff in Hx. destruct Hx as (r & <- & Hin).
      now apply an_rows_interest_zero in Hin.
    + rewrite rows_from_length. apply periods_count. lia.
    + intros r Hin. now apply an_rows_payment in Hin.
  - exists (r_pa / inject_Z n_per_year). split; [|split].
    + apply Q_truediv_ok, inject_Z_nonzero. lia.
    + apply Q_gt_false. q_ops. rewrite Hr0. discriminate.
    + now apply pva_payment_zero_rate.
Qed.

Lemma C6_witness :
  (exists s ti,
      zad7.calculate_constant_principal_schedule 10000 0 1 4
      = Ok (s, ti) /\ ti == 0) /\
  (exists s ti,
      zad7.calculate_annuity_schedule 10000 0 1 4
      = Ok (s, ti) /\ ti == 0 /\
      Z.of_nat (length s) = (1 * 4)%Z /\
      forall r, In r s -> zad7.total_payment r = 10000 / inject_Z (1 * 4)) /\
  (exists r_p,
      truediv 0 (of_int 4) = Ok r_p /\
      gt r_p (of_int 0) = false /\
      zad7.pva_payment 10000 r_p (1 * 4) = Raise ZeroDivisionError).
Proof.
  apply (@C6_zero_rate 10000 0 1 4); reflexivity || discriminate.
Defined.

(** C4 (as amended).  The annuity schedule for principal 10000, nominal
    annual rate 0.10, one year and 4 periods per year has 4 rows, each
    with total payment 706440250/265761 = 2658.178..., and the total
    interest returned is 168151000/265761 = 632.715...; the binary64
    figures of the script agree with these to the digits it prints. *)
Theorem C4_annuity_example :
  exists s ti,
    zad7.calculate_annuity_schedule 10000 (1 # 10) 1 4 = Ok (s, ti) /\
    length s = 4%nat /\
    (forall r, In r s ->
       zad7.total_payment r == 706440250 # 265761 /\
       Qabs (zad7.total_payment r - (265818 # 100)) <= (5 # 1000)) /\
    ti == 168151000 # 265761 /\
    Qabs (ti - (63272 # 100)) <= (5 # 1000).
Proof.
  rewrite annuity_valid_pos by (reflexivity || discriminate). cbv zeta.
  eexists _, _. split; [reflexivity|].
  split; [reflexivity|]. split; [|split].
  - intros r Hin. apply an_rows_payment in Hin. rewrite Hin.
    split; vm_compute; [reflexivity | discriminate].
  - vm_compute. reflexivity.
  - vm_compute. discriminate.
Qed.

(** C4, as the spec states it, fails: every total payment exceeds 2585.98
    by more than 72 and the total interest exceeds 340.20 by more than
    292, so neither figure is approximated, whatever the rounding. *)
Lemma C4_spec_figures_fail :
  (exists s ti,
      zad7.calculate_annuity_schedule 10000 (1 # 10) 1 4 = Ok (s, ti) /\
      (forall r, In r s -> 72 < zad7.total_payment r - (258598 # 100)) /\
      292 < ti - (34020 # 100)) /\
  ~ (exists s ti,
      zad7.calculate_annuity_schedule 10000 (1 # 10) 1 4 = Ok (s, ti) /\
      length s = 4%nat /\
      (forall r, In r s ->
         Qabs (zad7.total_payment r - (258598 # 100)) <= (1 # 100)) /\
      (34016 # 100) <= ti /\ ti <= (34020 # 100)).
Proof.
  split.
  - rewrite annuity_valid_pos by (reflexivity || discriminate). cbv zeta.
    eexists _, _. split; [reflexivity|]. split.
    + intros r Hin. apply an_rows_payment in Hin. rewrite Hin.
      vm_compute. reflexivity.
    + vm_compute. reflexivity.
  - rewrite annuity_valid_pos by (reflexivity || discriminate). cbv zeta.
    intros (s & ti & [= <- <-] & _ & _ & _ & Hti).
    revert Hti. vm_compute. intros Hti. now apply Hti.
Qed.







(** With a positive periodic rate the annuity builder evaluates
    [math.pow] before anything else of the schedule, and the errors of
    [math.pow] are its own: in binary64, with [T_years * n_per_year =
    -2000] and a periodic rate of 4, the power [5 ^ 2000] is out of
    range. *)
Example annuity_negative_term_overflow :
  zad7.calculate_annuity_schedule 1%float (-4)%float 2000 (-1)
  = Raise OverflowError.
Proof. vm_compute. reflexivity. Qed.

(* ----------------------------------------------------------------- *)
(** ** Further properties of the schedules *)

(** The driver of zad7.py, in exact arithmetic: the equal-principal
    schedule and its total interest. *)
Example driver_equal_principal :
  exists s ti,
    zad7.calculate_constant_principal_schedule
      P_LOAN R_NOMINAL T_YEARS N_PER_YEAR
    = Ok (s, ti) /\
    map zad7.period s = [1; 2; 3; 4]%Z /\
    Forall2 Qeq (map zad7.initial_principal s) [10000; 7500; 5000; 2500] /\
    Forall2 Qeq (map zad7.interest_payment s)
                [250; 1875 # 10; 125; 625 # 10] /\
    Forall2 Qeq (map zad7.total_payment s)
                [2750; 26875 # 10; 2625; 25625 # 10] /\
    ti == 625.
Proof.
  eexists _, _. split; [reflexivity|]. split; [reflexivity|].
  repeat split; repeat constructor.
Qed.

(** In the annuity schedule the total payment is the same in every row,
    and in both schedules the total interest returned is the running sum
    of the interest portions of the rows, in the arithmetic of any number
    system. *)
Theorem annuity_payment_constant
    {A : Type} `{Number A} (P r_pa : A) (T_years n_per_year : Z)
    (s : list (zad7.row A)) (ti : A) :
  zad7.calculate_annuity_schedule P r_pa T_years n_per_year = Ok (s, ti) ->
  (exists tp, forall r, In r s -> zad7.total_payment r = tp) /\
  (exists r_p,
     truediv r_pa (of_int n_per_year) = Ok r_p /\
     forall r, In r s ->
       zad7.interest_payment r = mul (zad7.initial_principal r) r_p /\
       zad7.principal_payment r
       = sub (zad7.total_payment r) (zad7.interest_payment r)) /\
  ti = sum_of (map zad7.interest_payment s).
Proof.
  rewrite annuity_unrolled.
  destruct (truediv r_pa (of_int n_per_year)) as [r_p|]; [|discriminate].
  cbn [bind].
  destruct (if gt r_p (of_int 0) then _ else _) as [tp|]; [|discriminate].
  cbn [bind]. intros E. injection E as <- <-. split; [|split].
  - exists tp. intros r Hin. now apply an_rows_payment in Hin.
  - exists r_p. split; [reflexivity|]. intros r Hin.
    rewrite (an_rows_payment _ _ _ _ _ Hin).
    now apply an_rows_entries in Hin.
  - reflexivity.
Qed.

Lemma annuity_payment_constant_witness :
  (exists tp, forall r, In r schedule2 -> zad7.total_payment r = tp) /\
  (exists r_p,
     truediv R_NOMINAL (of_int N_PER_YEAR) = Ok r_p /\
     forall r, In r schedule2 ->
       zad7.interest_payment r = mul (zad7.initial_principal r) r_p /\
       zad7.principal_payment r
       = sub (zad7.total_payment r) (zad7.interest_payment r)) /\
  sum_of (map zad7.interest_payment schedule2)
  = sum_of (map zad7.interest_payment schedule2).
Proof.
  apply (@annuity_payment_constant Q Q_Number
           P_LOAN R_NOMINAL T_YEARS N_PER_YEAR).
  reflexivity.
Defined.

(** In the equal-principal schedule every row pays its principal portion
    plus the interest on its opening principal, and the total interest
    returned is the running sum of the interest portions, in the
    arithmetic of any number system. *)
Theorem equal_principal_rows
    {A : Type} `{Number A} (P r_pa : A) (T_years n_per_year : Z)
    (s : list (zad7.row A)) (ti : A) :
  zad7.calculate_constant_principal_schedule P r_pa T_years n_per_year
  = Ok (s, ti) ->
  (exists r_p,
     truediv r_pa (of_int n_per_year) = Ok r_p /\
     forall r, In r s ->
       zad7.interest_payment r = mul (zad7.initial_principal r) r_p /\
       zad7.total_payment r
       = add (zad7.principal_payment r) (zad7.interest_payment r)) /\
  ti = sum_of (map zad7.interest_payment s).
Proof.
  rewrite constant_principal_unrolled.
  destruct (truediv r_pa (of_int n_per_year)) as [r_p|]; [|discriminate].
  cbn [bind]. destruct (truediv P _) as [pp|]; [|discriminate].
  cbn [bind]. intros E. injection E as <- <-. split; [|reflexivity].
  exists r_p. split; [reflexivity|]. intros r Hin.
  rewrite (cp_rows_principal _ _ _ _ _ Hin).
  now apply cp_rows_entries in Hin.
Qed.

Lemma equal_principal_rows_witness :
  (exists r_p,
     truediv R_NOMINAL (of_int N_PER_YEAR) = Ok r_p /\
     forall r, In r schedule1 ->
       zad7.interest_payment r = mul (zad7.initial_principal r) r_p /\
       zad7.total_payment r
       = add (zad7.principal_payment r) (zad7.interest_payment r)) /\
  sum_of (map zad7.interest_payment schedule1)
  = sum_of (map zad7.interest_payment schedule1).
Proof.
  apply (@equal_principal_rows Q Q_Number
           P_LOAN R_NOMINAL T_YEARS N_PER_YEAR).
  reflexivity.
Defined.

(** The principal outstanding after [k] payments of the annuity loop, in
    exact arithmetic and at a periodic rate other than zero: the closed
    form [P * (1 + r)^k - A * ((1 + r)^k - 1) / r] that zadanie8.py
    evaluates for its balance after 3 months. *)
Theorem annuity_outstanding_balance (P r_p tp : Q) (k : Z) :
  ~ r_p == 0 -> (0 <= k)%Z ->
  zad7.current_principal
    (fold_left (zad7.annuity_body r_p tp) (range 1 (k + 1))
               (zad7.loop_init P))
  == P * (1 + r_p) ^ k - tp * (((1 + r_p) ^ k - 1) / r_p).
Proof.
  intros Hr Hk. rewrite annuity_body_push, fold_push.
  cbn [zad7.current_principal zad7.loop_init].
  pose proof (an_balance_after r_p tp P (range 1 (k + 1))) as Hb.
  rewrite periods_count in Hb by exact Hk.
  set (b := balance_after _ _ _) in *. set (X := (1 + r_p) ^ k) in *.
  setoid_replace b with (b * r_p / r_p) by (field; exact Hr).
  rewrite Hb. field. exact Hr.
Qed.

Lemma annuity_outstanding_balance_witness :
  zad7.current_principal
    (fold_left (zad7.annuity_body (55 # 12000) 2839) (range 1 (3 + 1))
               (zad7.loop_init 500000))
  == 500000 * (1 + (55 # 12000)) ^ 3
     - 2839 * (((1 + (55 # 12000)) ^ 3 - 1) / (55 # 12000)).
Proof.
  apply (@annuity_outstanding_balance 500000 (55 # 12000) 2839 3);
    discriminate.
Defined.

(* ================================================================= *)
(** * Dictionaries and sorting, for every number system *)

Section Dicts.
Context {A : Type} `{Number A}.

Lemma insert_item_perm (e : Z * A) (l : list (Z * A)) :
  Permutation (zad1.insert_item e l) (e :: l).
Proof.
  induction l as [|e' l IH]; simpl; [reflexivity|].
  destruct (fst e <=? fst e')%Z; [reflexivity|].
  rewrite IH. apply perm_swap.
Qed.

Lemma sorted_perm (l : list (Z * A)) : Permutation (zad1.sorted l) l.
Proof.
  induction l as [|e l IH]; simpl; [reflexivity|].
  rewrite insert_item_perm. now constructor.
Qed.

Lemma insert_item_ascending (e : Z * A) (l : list (Z * A)) :
  ascending l -> ~ In (fst e) (zad1.keys l) ->
  ascending (zad1.insert_item e l).
Proof.
  unfold ascending. induction l as [|e' l IH]; intros Hs Hnin; simpl.
  - repeat constructor.
  - apply StronglySorted_inv in Hs. destruct Hs as [Hs Hall].
    simpl in Hnin.
    destruct (Z.leb_spec (fst e) (fst e')) as [Hle|Hgt].
    + assert (Hlt : (fst e < fst e')%Z) by lia.
      constructor; [now constructor|]. constructor; [exact Hlt|].
      eapply Forall_impl; [|exact Hall]. simpl. intros x Hx. lia.
    + constructor; [apply IH; tauto|].
      eapply Permutation_Forall; [symmetry; apply insert_item_perm|].
      now constructor.
Qed.

Lemma sorted_ascending (l : list (Z * A)) :
  NoDup (zad1.keys l) -> ascending (zad1.sorted l).
Proof.
  induction l as [|e l IH]; simpl; intros Hnd.
  - constructor.
  - apply NoDup_cons_iff in Hnd. destruct Hnd as [Hnin Hnd].
    apply insert_item_ascending; [now apply IH|].
    intros Hin. apply Hnin. unfold zad1.keys in *.
    eapply Permutation_in; [|exact Hin].
    apply Permutation_map, sorted_perm.
Qed.

(** Two lists in ascending day order with the same items are equal. *)
Lemma ascending_unique (l1 l2 : list (Z * A)) :
  ascending l1 -> ascending l2 -> Permutation l1 l2 -> l1 = l2.
Proof.
  unfold ascending. revert l2.
  induction l1 as [|x l1 IH]; intros l2 H1 H2 Hp.
  - now apply Permutation_nil in Hp.
  - destruct l2 as [|y l2];
      [symmetry in Hp; now apply Permutation_nil in Hp|].
    apply StronglySorted_inv in H1. destruct H1 as [H1 Hx].
    apply StronglySorted_inv in H2. destruct H2 as [H2 Hy].
    rewrite Forall_forall in Hx, Hy.
    assert (Hxy : x = y).
    { assert (Hin1 : In x (y :: l2))
        by (eapply Permutation_in; [exact Hp | now left]).
      assert (Hin2 : In y (x :: l1))
        by (eapply Permutation_in; [symmetry; exact Hp | now left]).
      destruct Hin1 as [->|Hin1]; [reflexivity|].
      destruct Hin2 as [->|Hin2]; [reflexivity|].
      specialize (Hx _ Hin2). specialize (Hy _ Hin1). lia. }
    subst y. f_equal. apply IH; try assumption.
    now apply Permutation_cons_inv in Hp.
Qed.

Lemma sorted_unique (l l' : list (Z * A)) :
  NoDup (zad1.keys l) -> ascending l' -> Permutation l l' ->
  zad1.sorted l = l'.
Proof.
  intros Hnd Hasc Hp. apply ascending_unique.
  - now apply sorted_ascending.
  - exact Hasc.
  - now rewrite sorted_perm.
Qed.

Lemma ascending_keys_NoDup (l : list (Z * A)) :
  ascending l -> NoDup (zad1.keys l).
Proof.
  unfold ascending. induction 1 as [|x l Hs IH Hall]; simpl; constructor.
  - intros Hin. apply in_map_iff in Hin. destruct Hin as (e & He & Hin).
    rewrite Forall_forall in Hall. specialize (Hall _ Hin). lia.
  - exact IH.
Qed.

(** Storing under a new key appends; storing under the key of an entry
    replaces its value in place. *)
Lemma dict_set_new (k : Z) (v : A) (d : zad1.dict A) :
  ~ In k (zad1.keys d) -> zad1.dict_set k v d = d ++ [(k, v)].
Proof.
  induction d as [|[k' v'] d IH]; simpl; intros Hnin; [reflexivity|].
  destruct (Z.eqb_spec k' k) as [->|Hne]; [tauto|].
  rewrite IH by tauto. reflexivity.
Qed.

Lemma dict_set_old (k : Z) (v v0 : A) (d1 d2 : zad1.dict A) :
  ~ In k (zad1.keys d1) ->
  zad1.dict_set k v (d1 ++ (k, v0) :: d2) = d1 ++ (k, v) :: d2.
Proof.
  induction d1 as [|[k' v'] d1 IH]; simpl; intros Hnin.
  - now rewrite Z.eqb_refl.
  - destruct (Z.eqb_spec k' k) as [->|Hne]; [tauto|].
    rewrite IH by tauto. reflexivity.
Qed.

Lemma dict_set_keys (k : Z) (v : A) (d : zad1.dict A) :
  In k (zad1.keys d) -> zad1.keys (zad1.dict_set k v d) = zad1.keys d.
Proof.
  induction d as [|[k' v'] d IH]; simpl; intros Hin; [tauto|].
  destruct (Z.eqb_spec k' k) as [->|Hne]; [reflexivity|].
  simpl. rewrite IH; [reflexivity|]. destruct Hin; [contradiction | assumption].
Qed.

(** [dict(items)] of items with distinct keys keeps them as they are. *)
Lemma dict_of_items_fold (items acc : list (Z * A)) :
  NoDup (zad1.keys (acc ++ items)) ->
  fold_left (fun d e => zad1.dict_set (fst e) (snd e) d) items acc
  = acc ++ items.
Proof.
  revert acc. induction items as [|[k v] items IH]; intros acc Hnd; simpl.
  - now rewrite app_nil_r.
  - rewrite dict_set_new.
    + rewrite IH; rewrite <- app_assoc; [reflexivity | exact Hnd].
    + unfold zad1.keys in *. rewrite map_app in Hnd. simpl in Hnd.
      apply NoDup_remove_2 in Hnd. intros Hin. apply Hnd.
      apply in_or_app. now left.
Qed.

Lemma dict_of_items_id (items : list (Z * A)) :
  NoDup (zad1.keys items) -> zad1.dict_of_items items = items.
Proof. intros Hnd. unfold zad1.dict_of_items. now rewrite dict_of_items_fold. Qed.

(** The dict the loop iterates over. *)
Lemma sorted_transactions_eq (t : zad1.dict A) (dim : Z) :
  NoDup (zad1.keys t) ->
  zad1.sorted_transactions t dim
  = zad1.dict_set (dim + 1) (of_int 0) (zad1.sorted t).
Proof.
  intros Hnd. unfold zad1.sorted_transactions.
  rewrite dict_of_items_id; [reflexivity|].
  now apply ascending_keys_NoDup, sorted_ascending.
Qed.

(** Insertion order does not matter. *)
Lemma sorted_insertion_order (t1 t2 : zad1.dict A) :
  NoDup (zad1.keys t1) -> Permutation t1 t2 ->
  zad1.sorted t2 = zad1.sorted t1.
Proof.
  intros Hnd Hp.
  assert (Hnd2 : NoDup (zad1.keys t2)).
  { unfold zad1.keys in *. eapply Permutation_NoDup; [|exact Hnd].
    now apply Permutation_map. }
  apply sorted_unique; [exact Hnd2 | now apply sorted_ascending |].
  now rewrite sorted_perm.
Qed.

End Dicts.

Section Days.
Context {A : Type} `{Number A}.

Lemma without_day_keys (k d : Z) (t : zad1.dict A) :
  In d (zad1.keys (without_day k t)) <-> In d (zad1.keys t) /\ d <> k.
Proof.
  unfold zad1.keys, without_day. rewrite !in_map_iff. split.
  - intros ([d' v] & <- & Hin). apply filter_In in Hin.
    destruct Hin as [Hin Hne]. simpl in *. split.
    + exists (d', v). now split.
    + destruct (Z.eqb_spec d' k); [discriminate | assumption].
  - intros [([d' v] & <- & Hin) Hne]. exists (d', v). split; [reflexivity|].
    apply filter_In. split; [exact Hin|]. simpl in *.
    now destruct (Z.eqb_spec d' k).
Qed.

Lemma without_day_NoDup (k : Z) (t : zad1.dict A) :
  NoDup (zad1.keys t) -> NoDup (zad1.keys (without_day k t)).
Proof.
  induction t as [|[d v] t IH]; simpl; intros Hnd; [constructor|].
  apply NoDup_cons_iff in Hnd. destruct Hnd as [Hnin Hnd].
  destruct (Z.eqb_spec d k); simpl; [now apply IH|].
  constructor; [|now apply IH].
  intros Hin. apply without_day_keys in Hin. tauto.
Qed.

Lemma without_day_absent (k : Z) (t : zad1.dict A) :
  ~ In k (zad1.keys t) -> without_day k t = t.
Proof.
  induction t as [|[d v] t IH]; simpl; intros Hnin; [reflexivity|].
  destruct (Z.eqb_spec d k) as [->|Hne]; [tauto|].
  simpl. rewrite IH by tauto. reflexivity.
Qed.

Lemma without_day_perm (k : Z) (v : A) (t : zad1.dict A) :
  NoDup (zad1.keys t) -> In (k, v) t ->
  Permutation t ((k, v) :: without_day k t).
Proof.
  induction t as [|[d w] t IH]; simpl; intros Hnd Hin; [tauto|].
  apply NoDup_cons_iff in Hnd. destruct Hnd as [Hnin Hnd].
  destruct Hin as [[= -> ->]|Hin].
  - rewrite Z.eqb_refl. simpl.
    change (filter _ t) with (without_day k t).
    now rewrite without_day_absent.
  - destruct (Z.eqb_spec d k) as [->|Hne].
    + exfalso. apply Hnin. apply in_map_iff. now exists (k, v).
    + simpl. rewrite perm_swap. constructor. now apply IH.
Qed.

Lemma ascending_snoc (l : list (Z * A)) (e : Z * A) :
  ascending l -> Forall (fun e' => (fst e' < fst e)%Z) l ->
  ascending (l ++ [e]).
Proof.
  unfold ascending. induction 1 as [|x l Hs IH Hall]; intros Hlt; simpl.
  - repeat constructor.
  - apply Forall_cons_iff in Hlt. destruct Hlt as [Hx Hlt].
    constructor; [now apply IH|].
    apply Forall_app. split; [exact Hall | now repeat constructor].
Qed.

Lemma sorted_without_day_keys (k d : Z) (t : zad1.dict A) :
  In d (zad1.keys (zad1.sorted (without_day k t))) ->
  In d (zad1.keys t) /\ d <> k.
Proof.
  intros Hin. apply (without_day_keys k d t). unfold zad1.keys in *.
  eapply Permutation_in; [|exact Hin]. apply Permutation_map, sorted_perm.
Qed.

(** A transaction of day 1 is the first the loop meets. *)
Lemma sorted_day_one (a : A) (t : zad1.dict A) :
  NoDup (zad1.keys t) ->
  (forall d, In d (zad1.keys t) -> (1 <= d)%Z) ->
  In (1%Z, a) t ->
  zad1.sorted t = (1%Z, a) :: zad1.sorted (without_day 1 t).
Proof.
  intros Hnd Hkeys Hin. apply sorted_unique; [exact Hnd | |].
  - constructor.
    + now apply sorted_ascending, without_day_NoDup.
    + apply Forall_forall. intros [d v] Hd. simpl.
      assert (Hk : In d (zad1.keys (zad1.sorted (without_day 1 t))))
        by (apply in_map_iff; now exists (d, v)).
      apply sorted_without_day_keys in Hk. destruct Hk as [Hk Hne].
      specialize (Hkeys _ Hk). lia.
  - rewrite sorted_perm. now apply without_day_perm.
Qed.

(** A transaction of the greatest day is the last the loop meets before
    the entry of [days_in_month + 1]. *)
Lemma sorted_last_day (dim : Z) (a : A) (t : zad1.dict A) :
  NoDup (zad1.keys t) ->
  (forall d, In d (zad1.keys t) -> (d <= dim)%Z) ->
  In (dim, a) t ->
  zad1.sorted t = zad1.sorted (without_day dim t) ++ [(dim, a)].
Proof.
  intros Hnd Hkeys Hin. apply sorted_unique; [exact Hnd | |].
  - apply ascending_snoc.
    + now apply sorted_ascending, without_day_NoDup.
    + apply Forall_forall. intros [d v] Hd. simpl.
      assert (Hk : In d (zad1.keys (zad1.sorted (without_day dim t))))
        by (apply in_map_iff; now exists (d, v)).
      apply sorted_without_day_keys in Hk. destruct Hk as [Hk Hne].
      specialize (Hkeys _ Hk). lia.
  - rewrite <- Permutation_cons_append, sorted_perm.
    now apply without_day_perm.
Qed.

Lemma sorted_keys_in (d : Z) (t : zad1.dict A) :
  In d (zad1.keys (zad1.sorted t)) <-> In d (zad1.keys t).
Proof.
  unfold zad1.keys. split; intros Hin.
  - eapply Permutation_in; [|exact Hin]. apply Permutation_map, sorted_perm.
  - eapply Permutation_in; [|exact Hin].
    apply Permutation_map. symmetry. apply sorted_perm.
Qed.

(** With every day inside the month, the zero-amount entry of
    [days_in_month + 1] is appended. *)
Lemma sorted_transactions_in_month (t : zad1.dict A) (dim : Z) :
  NoDup (zad1.keys t) ->
  (forall d, In d (zad1.keys t) -> (d <= dim)%Z) ->
  zad1.sorted_transactions t dim
  = zad1.sorted t ++ [((dim + 1)%Z, of_int 0)].
Proof.
  intros Hnd Hkeys. rewrite sorted_transactions_eq by exact Hnd.
  apply dict_set_new. intros Hin. rewrite sorted_keys_in in Hin.
  specialize (Hkeys _ Hin). lia.
Qed.

End Days.

(* ================================================================= *)
(** * The properties of zestaw1/zad1.py that hold in every number system *)

(** With every day inside the month the loop meets all its entries, the
    one of [days_in_month + 1] included, in ascending day order. *)
Lemma sorted_transactions_ascending {A : Type} `{Number A}
    (t : zad1.dict A) (dim : Z) :
  NoDup (zad1.keys t) ->
  (forall d, In d (zad1.keys t) -> (d <= dim)%Z) ->
  ascending (zad1.sorted_transactions t dim).
Proof.
  intros Hnd Hkeys. rewrite sorted_transactions_in_month by assumption.
  apply ascending_snoc; [now apply sorted_ascending|].
  apply Forall_forall. intros [d v] Hd. simpl.
  assert (Hk : In d (zad1.keys t)).
  { apply (sorted_keys_in d t). apply in_map_iff. now exists (d, v). }
  specialize (Hkeys _ Hk). lia.
Qed.

(** C8.  The routine works on a sorted copy of the mapping: the items it
    iterates over are the items of the mapping, each once, in ascending
    day order, with the zero-amount entry stored under
    [days_in_month + 1] (last, when every day is inside the month), and
    its result is the loop body folded over them in that order.  So two
    insertion orders of the same transactions give the same sorted copy
    and the same results, in whatever arithmetic. *)
Theorem C8_insertion_order_irrelevant
    {A : Type} `{Number A} (start_balance annual_rate : A)
    (days_in_month : Z) (t1 t2 : zad1.dict A) :
  NoDup (zad1.keys t1) -> Permutation t1 t2 ->
  Permutation (zad1.sorted t1) t1 /\
  ascending (zad1.sorted t1) /\
  zad1.sorted t2 = zad1.sorted t1 /\
  zad1.sorted_transactions t1 days_in_month
  = zad1.dict_set (days_in_month + 1) (of_int 0) (zad1.sorted t1) /\
  zad1.sorted_transactions t2 days_in_month
  = zad1.sorted_transactions t1 days_in_month /\
  ((forall d, In d (zad1.keys t1) -> (d <= days_in_month)%Z) ->
   zad1.sorted_transactions t1 days_in_month
   = zad1.sorted t1 ++ [((days_in_month + 1)%Z, of_int 0)] /\
   ascending (zad1.sorted_transactions t1 days_in_month)) /\
  zad1.calculate_monthly_interest start_balance t1 days_in_month annual_rate
  = (daily_rate <- truediv annual_rate (of_int 365) ;;
     let st := fold_left (zad1.accrue_body daily_rate)
                 (zad1.dict_set (days_in_month + 1) (of_int 0)
                                (zad1.sorted t1))
                 (zad1.loop_init start_balance) in
     Ok (zad1.total_interest st,
         add (zad1.current_balance st) (zad1.total_interest st))) /\
  zad1.calculate_monthly_interest start_balance t2 days_in_month annual_rate
  = zad1.calculate_monthly_interest start_balance t1 days_in_month
      annual_rate.
Proof.
  intros Hnd Hp.
  pose proof (sorted_insertion_order Hnd Hp) as Hs.
  assert (Hst : zad1.sorted_transactions t2 days_in_month
                = zad1.sorted_transactions t1 days_in_month)
    by (unfold zad1.sorted_transactions; now rewrite Hs).
  split; [apply sorted_perm|].
  split; [now apply sorted_ascending|].
  split; [exact Hs|].
  split; [now apply sorted_transactions_eq|].
  split; [exact Hst|].
  split; [|split].
  - intros Hkeys. split.
    + now apply sorted_transactions_in_month.
    + now apply sorted_transactions_ascending.
  - unfold zad1.calculate_monthly_interest.
    now rewrite sorted_transactions_eq.
  - unfold zad1.calculate_monthly_interest. now rewrite Hst.
Qed.

Lemma C8_witness :
  Permutation (zad1.sorted transactions_oct) transactions_oct /\
  ascending (zad1.sorted transactions_oct) /\
  zad1.sorted (rev transactions_oct) = zad1.sorted transactions_oct /\
  zad1.sorted_transactions transactions_oct 31
  = zad1.dict_set (31 + 1) (of_int 0) (zad1.sorted transactions_oct) /\
  zad1.sorted_transactions (rev transactions_oct) 31
  = zad1.sorted_transactions transactions_oct 31 /\
  ((forall d, In d (zad1.keys transactions_oct) -> (d <= 31)%Z) ->
   zad1.sorted_transactions transactions_oct 31
   = zad1.sorted transactions_oct ++ [((31 + 1)%Z, of_int 0)] /\
   ascending (zad1.sorted_transactions transactions_oct 31)) /\
  zad1.calculate_monthly_interest 100000 transactions_oct 31 (5 # 100)
  = (daily_rate <- truediv (5 # 100) (of_int 365) ;;
     let st := fold_left (zad1.accrue_body daily_rate)
                 (zad1.dict_set (31 + 1) (of_int 0)
                                (zad1.sorted transactions_oct))
                 (zad1.loop_init 100000) in
     Ok (zad1.total_interest st,
         add (zad1.current_balance st) (zad1.total_interest st))) /\
  zad1.calculate_monthly_interest 100000 (rev transactions_oct) 31 (5 # 100)
  = zad1.calculate_monthly_interest 100000 transactions_oct 31 (5 # 100).
Proof.
  apply (@C8_insertion_order_irrelevant Q Q_Number).
  - repeat constructor; simpl; intuition discriminate.
  - apply Permutation_rev.
Defined.

(* ================================================================= *)
(** * The accrual loop in exact arithmetic *)

Lemma amounts_sum_perm (l l' : zad1.dict Q) :
  Permutation l l' -> amounts_sum l == amounts_sum l'.
Proof.
  induction 1 as [|x l l' Hp IH|x y l|l l' l'' Hp1 IH1 Hp2 IH2]; simpl.
  - reflexivity.
  - now rewrite IH.
  - ring.
  - now rewrite IH1.
Qed.

Lemma amounts_sum_app (l l' : zad1.dict Q) :
  amounts_sum (l ++ l') == amounts_sum l + amounts_sum l'.
Proof.
  induction l as [|e l IH]; simpl; [ring|]. rewrite IH. ring.
Qed.

(** The running balance after the loop: every amount met was added. *)
Lemma accrue_balance (daily_rate : Q) (l : zad1.dict Q)
    (st : zad1.loop_state Q) :
  zad1.current_balance (fold_left (zad1.accrue_body daily_rate) l st)
  == zad1.current_balance st + amounts_sum l.
Proof.
  revert st. induction l as [|[day amount] l IH]; intros st; simpl.
  - ring.
  - rewrite IH. simpl. ring.
Qed.

(** One pass of the loop body adds the interest of the sub-period that
    ends the day before the transaction, when that sub-period is not of
    negative length. *)
Lemma accrue_body_interest (daily_rate : Q) (st : zad1.loop_state Q)
    (day : Z) (amount : Q) :
  (zad1.processed_through_day st <= day - 1)%Z ->
  zad1.total_interest (zad1.accrue_body daily_rate st (day, amount))
  == zad1.total_interest st
     + zad1.current_balance st * daily_rate
       * inject_Z (day - 1 - zad1.processed_through_day st).
Proof.
  intros Hle. simpl. rewrite Z.gtb_ltb.
  destruct (Z.ltb_spec 0 (day - 1 - zad1.processed_through_day st))
    as [Hpos|Hzero]; [reflexivity|].
  replace (day - 1 - zad1.processed_through_day st)%Z with 0%Z by lia.
  ring.
Qed.

(** The interest after the loop: the sum over the sub-periods. *)
Lemma accrue_interest (daily_rate : Q) (dim : Z) (l : zad1.dict Q) :
  forall st : zad1.loop_state Q,
  ascending l ->
  (forall d, In d (zad1.keys l) ->
     (zad1.processed_through_day st + 1 <= d <= dim)%Z) ->
  (zad1.processed_through_day st <= dim)%Z ->
  zad1.total_interest
    (fold_left (zad1.accrue_body daily_rate)
               (l ++ [((dim + 1)%Z, of_int 0)]) st)
  == zad1.total_interest st
     + subperiod_interest daily_rate
         (subperiods (zad1.current_balance st)
                     (zad1.processed_through_day st) l dim).
Proof.
  induction l as [|[day amount] l IH]; intros st Hasc Hkeys Hdim.
  - cbn [app fold_left subperiods subperiod_interest fold_right fst snd].
    rewrite accrue_body_interest by lia.
    replace (dim + 1 - 1 - zad1.processed_through_day st)%Z
      with (dim - zad1.processed_through_day st)%Z by lia.
    ring.
  - apply StronglySorted_inv in Hasc. destruct Hasc as [Hasc Hall].
    rewrite Forall_forall in Hall.
    pose proof (Hkeys day ltac:(now left)) as Hday.
    change (fold_left (zad1.accrue_body daily_rate)
              (((day, amount) :: l) ++ [((dim + 1)%Z, of_int 0)]) st)
      with (fold_left (zad1.accrue_body daily_rate)
              (l ++ [((dim + 1)%Z, of_int 0)])
              (zad1.accrue_body daily_rate st (day, amount))).
    rewrite IH.
    + rewrite accrue_body_interest by lia.
      cbn [subperiods subperiod_interest fold_right fst snd].
      simpl zad1.current_balance. simpl zad1.processed_through_day.
      q_ops. unfold subperiod_interest. ring.
    + exact Hasc.
    + intros d Hd. simpl zad1.processed_through_day.
      apply in_map_iff in Hd. destruct Hd as ([d' v] & <- & Hin).
      specialize (Hall _ Hin). simpl in Hall.
      assert (Hd' : In d' (zad1.keys ((day, amount) :: l)))
        by (right; apply in_map_iff; now exists (d', v)).
      specialize (Hkeys _ Hd'). simpl. lia.
    + simpl. lia.
Qed.

(** [calculate_monthly_interest] never raises in exact arithmetic. *)
Lemma monthly_interest_Q (start_balance annual_rate : Q)
    (t : zad1.dict Q) (dim : Z) :
  zad1.calculate_monthly_interest start_balance t dim annual_rate =
  let st := fold_left (zad1.accrue_body (annual_rate / 365))
                      (zad1.sorted_transactions t dim)
                      (zad1.loop_init start_balance) in
  Ok (zad1.total_interest st,
      zad1.current_balance st + zad1.total_interest st).
Proof. reflexivity. Qed.

(* ================================================================= *)
(** * The properties of zestaw1/zad1.py in exact arithmetic *)

(** C3.  For every starting balance, every transactions mapping whose
    day keys are 1-based and inside the month, every positive
    [days_in_month] and every annual rate, the routine returns
    [(total_interest, closing_balance)] where the closing balance is the
    starting balance plus the sum of all transaction amounts plus the
    total interest, and the total interest is the sum, over the
    sub-periods between consecutive transaction days, of the balance held
    during the sub-period times [annual_rate / 365] times its number of
    days; the balances are sums of amounts only, so the interest is
    credited once, at the end, and never enters the balance that accrues. *)
Theorem C3_closing_balance_and_interest
    (start_balance annual_rate : Q) (transactions : zad1.dict Q)
    (days_in_month : Z) :
  NoDup (zad1.keys transactions) ->
  in_month transactions days_in_month ->
  (0 < days_in_month)%Z ->
  exists total_interest closing_balance,
    zad1.calculate_monthly_interest start_balance transactions
      days_in_month annual_rate
    = Ok (total_interest, closing_balance) /\
    closing_balance
    == start_balance + amounts_sum transactions + total_interest /\
    total_interest
    == spec_total_interest start_balance transactions days_in_month
         annual_rate.
Proof.
  intros Hnd Hin Hdim. rewrite monthly_interest_Q. cbv zeta.
  eexists _, _. split; [reflexivity|].
  rewrite sorted_transactions_in_month
    by (exact Hnd || (intros d Hd; apply Hin in Hd; lia)).
  split.
  - rewrite accrue_balance, amounts_sum_app.
    rewrite (amounts_sum_perm (sorted_perm transactions)).
    simpl. ring.
  - rewrite accrue_interest.
    + simpl. unfold spec_total_interest. ring.
    + now apply sorted_ascending.
    + intros d Hd. rewrite sorted_keys_in in Hd. apply Hin in Hd.
      simpl. lia.
    + simpl. lia.
Qed.

Lemma C3_witness :
  exists total_interest closing_balance,
    zad1.calculate_monthly_interest 100000 transactions_oct 31 (5 # 100)
    = Ok (total_interest, closing_balance) /\
    closing_balance
    == 100000 + amounts_sum transactions_oct + total_interest /\
    total_interest
    == spec_total_interest 100000 transactions_oct 31 (5 # 100).
Proof.
  apply (@C3_closing_balance_and_interest 100000 (5 # 100)
           transactions_oct 31).
  - repeat constructor; simpl; intuition discriminate.
  - intros d Hd. simpl in Hd.
    destruct Hd as [<-|[<-|[<-|[]]]]; split; discriminate.
  - reflexivity.
Defined.

(** The driver of zad1.py, in exact arithmetic: October, then November
    from the closing balance of October. *)
Example driver_october_november :
  exists interest_oct closing_balance_oct interest_nov closing_balance_nov,
    zad1.calculate_monthly_interest 100000 transactions_oct 31 (5 # 100)
    = Ok (interest_oct, closing_balance_oct) /\
    zad1.calculate_monthly_interest closing_balance_oct transactions_nov 30
      (5 # 100)
    = Ok (interest_nov, closing_balance_nov) /\
    interest_oct == 182700 # 365 /\
    closing_balance_oct == 97000 + (182700 # 365) /\
    closing_balance_nov
    == closing_balance_oct - 25000 + 100000 + interest_nov.
Proof.
  eexists _, _, _, _. split; [reflexivity|]. split; [reflexivity|].
  repeat split; vm_compute; reflexivity.
Qed.

(** The routine on the empty mapping, in any arithmetic: one pass of the
    loop, over the zero-amount entry of [days_in_month + 1]. *)
Lemma monthly_interest_empty {A : Type} `{Number A}
    (start_balance annual_rate : A) (days_in_month : Z) :
  (0 < days_in_month)%Z ->
  zad1.calculate_monthly_interest start_balance [] days_in_month annual_rate
  = (daily_rate <- truediv annual_rate (of_int 365) ;;
     let interest :=
       add (of_int 0)
           (mul (mul start_balance daily_rate) (of_int days_in_month)) in
     Ok (interest, add (add start_balance (of_int 0)) interest)).
Proof.
  intros Hdim. unfold zad1.calculate_monthly_interest.
  destruct (truediv annual_rate (of_int 365)) as [daily_rate|];
    [|reflexivity].
  cbn [bind]. cbn.
  replace (days_in_month + 1 - 1 - 0)%Z with days_in_month by lia.
  destruct (Z.gtb_spec days_in_month 0) as [_|Hle]; [reflexivity | lia].
Qed.

(** C10.  For an empty transactions mapping the loop runs once, over the
    zero-amount entry of [days_in_month + 1]: one accrual sub-period
    spanning the whole month.  In any arithmetic the total interest is
    [0.0 + start_balance * daily_rate * days_in_month] and the closing
    balance is [(start_balance + 0.0)] plus that; in exact arithmetic
    these are [start_balance * (annual_rate / 365) * days_in_month] and
    the starting balance plus that interest. *)
Theorem C10_empty_mapping :
  (forall (A : Type) (NA : Number A) (start_balance annual_rate : A)
          (days_in_month : Z),
     (0 < days_in_month)%Z ->
     zad1.sorted_transactions (@nil (Z * A)) days_in_month
     = [((days_in_month + 1)%Z, of_int 0)] /\
     zad1.calculate_monthly_interest start_balance [] days_in_month
       annual_rate
     = (daily_rate <- truediv annual_rate (of_int 365) ;;
        let interest :=
          add (of_int 0)
              (mul (mul start_balance daily_rate) (of_int days_in_month)) in
        Ok (interest, add (add start_balance (of_int 0)) interest))) /\
  (forall (start_balance annual_rate : Q) (days_in_month : Z),
     (0 < days_in_month)%Z ->
     subperiods start_balance 0 [] days_in_month
     = [(start_balance, (days_in_month - 0)%Z)] /\
     exists total_interest closing_balance,
       zad1.calculate_monthly_interest start_balance [] days_in_month
         annual_rate
       = Ok (total_interest, closing_balance) /\
       total_interest
       == start_balance * (annual_rate / 365) * inject_Z days_in_month /\
       closing_balance == start_balance + total_interest).
Proof.
  split.
  - intros A NA start_balance annual_rate days_in_month Hdim.
    split; [reflexivity | now apply monthly_interest_empty].
  - intros start_balance annual_rate days_in_month Hdim.
    split; [reflexivity|].
    rewrite monthly_interest_empty by exact Hdim.
    rewrite Q_truediv_ok by discriminate. cbn [bind]. cbv zeta.
    eexists _, _. split; [reflexivity|]. q_ops.
    change (inject_Z 0) with 0. change (inject_Z 365) with 365.
    split; ring.
Qed.

Lemma C10_witness :
  subperiods 100000 0 [] 30 = [(100000, (30 - 0)%Z)] /\
  exists total_interest closing_balance,
    zad1.calculate_monthly_interest 100000 [] 30 (5 # 100)
    = Ok (total_interest, closing_balance) /\
    total_interest == 100000 * ((5 # 100) / 365) * inject_Z 30 /\
    closing_balance == 100000 + total_interest.
Proof.
  apply (proj2 C10_empty_mapping 100000 (5 # 100) 30%Z). reflexivity.
Defined.

(* ----------------------------------------------------------------- *)
(** ** Transactions on the first and on the last day *)

Section FirstDay.
Context {A : Type} `{Number A}.

Lemma sorted_transactions_day_one (a : A) (t : zad1.dict A) (dim : Z) :
  NoDup (zad1.keys t) ->
  (forall d, In d (zad1.keys t) -> (1 <= d)%Z) ->
  In (1%Z, a) t -> dim <> 0%Z ->
  zad1.sorted_transactions t dim
  = (1%Z, a) :: zad1.sorted_transactions (without_day 1 t) dim.
Proof.
  intros Hnd Hkeys Hin Hdim.
  rewrite !sorted_transactions_eq by (try apply without_day_NoDup; exact Hnd).
  rewrite (sorted_day_one a t Hnd Hkeys Hin). cbn [zad1.dict_set].
  destruct (Z.eqb_spec 1 (dim + 1)); [lia | reflexivity].
Qed.

(** The loop body on a transaction of day 1, met first: [num_days] is 0,
    no interest is added and the amount joins the balance. *)
Lemma accrue_body_day_one (daily_rate start_balance a : A) :
  zad1.accrue_body daily_rate (zad1.loop_init start_balance) (1%Z, a)
  = zad1.loop_init (add start_balance a).
Proof. reflexivity. Qed.

Lemma monthly_interest_day_one (start_balance annual_rate a : A)
    (t : zad1.dict A) (dim : Z) :
  NoDup (zad1.keys t) ->
  (forall d, In d (zad1.keys t) -> (1 <= d)%Z) ->
  In (1%Z, a) t -> dim <> 0%Z ->
  zad1.calculate_monthly_interest start_balance t dim annual_rate
  = zad1.calculate_monthly_interest (add start_balance a)
      (without_day 1 t) dim annual_rate.
Proof.
  intros Hnd Hkeys Hin Hdim. unfold zad1.calculate_monthly_interest.
  rewrite (sorted_transactions_day_one a t Hnd Hkeys Hin Hdim).
  destruct (truediv annual_rate (of_int 365)) as [daily_rate|];
    [|reflexivity].
  cbn [bind fold_left]. now rewrite accrue_body_day_one.
Qed.

End FirstDay.

Lemma accrue_processed (daily_rate : Q) (m : Z) (l : zad1.dict Q) :
  forall st : zad1.loop_state Q,
  (forall d, In d (zad1.keys l) -> (d - 1 <= m)%Z) ->
  (zad1.processed_through_day st <= m)%Z ->
  (zad1.processed_through_day
     (fold_left (zad1.accrue_body daily_rate) l st) <= m)%Z.
Proof.
  induction l as [|[day amount] l IH]; intros st Hkeys Hst; simpl.
  - exact Hst.
  - apply IH.
    + intros d Hd. apply Hkeys. now right.
    + simpl. apply Hkeys. now left.
Qed.

(** C7.  In a mapping whose day keys are 1-based and inside the month:
    a transaction of day 1 is met first, with [num_days = 0], so it adds
    no interest and the month runs as if its amount had been in the
    starting balance.  A transaction of the last day is met last before
    the entry of [days_in_month + 1]; the pass over it adds the interest
    of the days since the previous transaction up to the day before it,
    on the balance without its amount, so that the interest of all the
    days before it is what it would be without it (the interest of a
    month of [days_in_month - 1] days on the same earlier transactions);
    the last day itself accrues on the balance that includes its
    amount. *)
Theorem C7_first_and_last_day
    (start_balance annual_rate : Q) (transactions : zad1.dict Q)
    (days_in_month : Z) :
  NoDup (zad1.keys transactions) ->
  in_month transactions days_in_month ->
  (forall a,
     In (1%Z, a) transactions ->
     zad1.sorted_transactions transactions days_in_month
     = (1%Z, a) ::
       zad1.sorted_transactions (without_day 1 transactions) days_in_month /\
     (forall daily_rate,
        zad1.accrue_body daily_rate (zad1.loop_init start_balance) (1%Z, a)
        = zad1.loop_init (start_balance + a)) /\
     zad1.calculate_monthly_interest start_balance transactions
       days_in_month annual_rate
     = zad1.calculate_monthly_interest (start_balance + a)
         (without_day 1 transactions) days_in_month annual_rate) /\
  (forall a,
     In (days_in_month, a) transactions ->
     let earlier := without_day days_in_month transactions in
     let daily_rate := annual_rate / 365 in
     let st := fold_left (zad1.accrue_body daily_rate) (zad1.sorted earlier)
                         (zad1.loop_init start_balance) in
     zad1.sorted_transactions transactions days_in_month
     = zad1.sorted earlier
       ++ [(days_in_month, a); ((days_in_month + 1)%Z, 0)] /\
     (zad1.processed_through_day st <= days_in_month - 1)%Z /\
     zad1.current_balance st == start_balance + amounts_sum earlier /\
     zad1.total_interest (zad1.accrue_body daily_rate st (days_in_month, a))
     == zad1.total_interest st
        + zad1.current_balance st * daily_rate
          * inject_Z (days_in_month - 1 - zad1.processed_through_day st) /\
     exists before closing_before total_interest closing_balance,
       zad1.calculate_monthly_interest start_balance earlier
         (days_in_month - 1) annual_rate
       = Ok (before, closing_before) /\
       zad1.calculate_monthly_interest start_balance transactions
         days_in_month annual_rate
       = Ok (total_interest, closing_balance) /\
       total_interest
       == before
          + (start_balance + amounts_sum earlier + a) * daily_rate * 1).
Proof.
  intros Hnd Hin. split.
  - intros a Ha.
    assert (Hdim : days_in_month <> 0%Z).
    { assert (Hk : In 1%Z (zad1.keys transactions))
        by (apply in_map_iff; now exists (1%Z, a)).
      apply Hin in Hk. lia. }
    assert (Hge : forall d, In d (zad1.keys transactions) -> (1 <= d)%Z)
      by (intros d Hd; apply Hin in Hd; lia).
    split; [now apply sorted_transactions_day_one|].
    split; [intros daily_rate;
            exact (accrue_body_day_one daily_rate start_balance a)|].
    exact (monthly_interest_day_one start_balance annual_rate a
             transactions Hnd Hge Ha Hdim).
  - intros a Ha earlier daily_rate st.
    assert (Hdim : (1 <= days_in_month)%Z).
    { assert (Hk : In days_in_month (zad1.keys transactions))
        by (apply in_map_iff; now exists (days_in_month, a)).
      apply Hin in Hk. lia. }
    assert (Hle : forall d, In d (zad1.keys transactions) ->
                            (d <= days_in_month)%Z)
      by (intros d Hd; apply Hin in Hd; lia).
    assert (Hearlier : forall d, In d (zad1.keys earlier) ->
                                 (1 <= d <= days_in_month - 1)%Z).
    { intros d Hd. apply without_day_keys in Hd. destruct Hd as [Hd Hne].
      apply Hin in Hd. lia. }
    assert (Hp : (zad1.processed_through_day st <= days_in_month - 1)%Z).
    { subst st. apply accrue_processed.
      - intros d Hd. rewrite sorted_keys_in in Hd. apply Hearlier in Hd. lia.
      - simpl. lia. }
    assert (Hb : zad1.current_balance st
                 == start_balance + amounts_sum earlier).
    { subst st. rewrite accrue_balance.
      now rewrite (amounts_sum_perm (sorted_perm earlier)). }
    pose proof (@accrue_body_interest daily_rate st days_in_month a
                  ltac:(lia)) as E1.
    assert (Hst : zad1.sorted_transactions transactions days_in_month
                  = zad1.sorted earlier
                    ++ [(days_in_month, a); ((days_in_month + 1)%Z, 0)]).
    { rewrite (sorted_transactions_in_month transactions Hnd Hle).
      rewrite (sorted_last_day a transactions Hnd Hle Ha).
      now rewrite <- app_assoc. }
    split; [exact Hst|]. split; [exact Hp|]. split; [exact Hb|].
    split; [exact E1|].
    rewrite !monthly_interest_Q. cbv zeta. eexists _, _, _, _.
    split; [reflexivity|]. split; [reflexivity|].
    rewrite (sorted_transactions_in_month earlier)
      by (try (now apply without_day_NoDup);
          intros d Hd; apply Hearlier in Hd; lia).
    rewrite Hst, !fold_left_app. fold daily_rate. fold st.
    cbn [fold_left].
    pose proof (@accrue_body_interest daily_rate
                  (zad1.accrue_body daily_rate st (days_in_month, a))
                  (days_in_month + 1) 0
                  ltac:(simpl; lia)) as E2.
    pose proof (@accrue_body_interest daily_rate st
                  (days_in_month - 1 + 1) (of_int 0)
                  ltac:(lia)) as E3.
    rewrite E2, E1, E3.
    simpl zad1.current_balance. simpl zad1.processed_through_day.
    replace (days_in_month + 1 - 1 - (days_in_month - 1))%Z with 1%Z by lia.
    replace (days_in_month - 1 + 1 - 1 - zad1.processed_through_day st)%Z
      with (days_in_month - 1 - zad1.processed_through_day st)%Z by lia.
    q_ops. rewrite Hb. simpl inject_Z. ring.
Qed.

Lemma C7_witness :
  zad1.calculate_monthly_interest 100000 transactions_first_last 30 (5 # 100)
  = zad1.calculate_monthly_interest (100000 + 500)
      (without_day 1 transactions_first_last) 30 (5 # 100) /\
  zad1.sorted_transactions transactions_first_last 30
  = zad1.sorted (without_day 30 transactions_first_last)
    ++ [(30%Z, 100000); ((30 + 1)%Z, 0)] /\
  exists before closing_before total_interest closing_balance,
    zad1.calculate_monthly_interest 100000
      (without_day 30 transactions_first_last) (30 - 1) (5 # 100)
    = Ok (before, closing_before) /\
    zad1.calculate_monthly_interest 100000 transactions_first_last 30
      (5 # 100)
    = Ok (total_interest, closing_balance) /\
    total_interest
    == before
       + (100000 + amounts_sum (without_day 30 transactions_first_last)
          + 100000) * ((5 # 100) / 365) * 1.
Proof.
  destruct (@C7_first_and_last_day 100000 (5 # 100)
              transactions_first_last 30) as [Hfirst Hlast].
  - repeat constructor; simpl; intuition discriminate.
  - intros d Hd. simpl in Hd.
    destruct Hd as [<-|[<-|[<-|[]]]]; split; discriminate.
  - split; [|split].
    + apply (Hfirst 500). right. left. reflexivity.
    + apply (Hlast 100000). left. reflexivity.
    + apply (Hlast 100000). left. reflexivity.
Defined.

(* ----------------------------------------------------------------- *)
(** ** A caller's entry under [days_in_month + 1] *)

Section Overwrite.
Context {A : Type} `{Number A}.

Lemma ascending_keys (l : zad1.dict A) :
  ascending l <-> StronglySorted Z.lt (zad1.keys l).
Proof.
  unfold ascending, zad1.keys. induction l as [|e l IH]; simpl.
  - split; constructor.
  - split; intros Hs; apply StronglySorted_inv in Hs;
      destruct Hs as [Hs Hall]; (constructor; [now apply IH|]).
    + apply (proj2 (Forall_map fst (Z.lt (fst e)) l)). exact Hall.
    + apply (proj1 (Forall_map fst (Z.lt (fst e)) l)). exact Hall.
Qed.

Lemma keys_middle (k : Z) (v v' : A) (l1 l2 : zad1.dict A) :
  zad1.keys (l1 ++ (k, v') :: l2) = zad1.keys (l1 ++ (k, v) :: l2).
Proof. unfold zad1.keys. now rewrite !map_app. Qed.

Lemma keys_split_absent (k : Z) (v : A) (l1 l2 : zad1.dict A) :
  NoDup (zad1.keys (l1 ++ (k, v) :: l2)) -> ~ In k (zad1.keys l1).
Proof.
  unfold zad1.keys. rewrite map_app. simpl. intros Hnd Hin.
  apply NoDup_remove_2 in Hnd. apply Hnd, in_or_app. now left.
Qed.

(** The value found under a key that has just been stored. *)
Lemma dict_set_lookup (k : Z) (v w : A) (d : zad1.dict A) :
  NoDup (zad1.keys d) -> In (k, v) (zad1.dict_set k w d) -> v = w.
Proof.
  induction d as [|[k' v'] d IH]; simpl; intros Hnd Hin.
  - destruct Hin as [[= <-]|[]]. reflexivity.
  - apply NoDup_cons_iff in Hnd. destruct Hnd as [Hnin Hnd].
    destruct (Z.eqb_spec k' k) as [->|Hne].
    + destruct Hin as [[= <-]|Hin]; [reflexivity|].
      exfalso. apply Hnin. apply in_map_iff. now exists (k, v).
    + destruct Hin as [[= -> _]|Hin]; [contradiction|]. now apply IH.
Qed.

(** Sorting sees the keys only: changing the amount stored under a key
    changes that amount in the sorted list and nothing else. *)
Lemma sorted_dict_set (k : Z) (a : A) (t : zad1.dict A) :
  NoDup (zad1.keys t) -> In (k, a) t ->
  exists s1 s2,
    zad1.sorted t = s1 ++ (k, a) :: s2 /\
    ~ In k (zad1.keys s1) /\
    Permutation (without_day k t) (s1 ++ s2) /\
    forall a', zad1.sorted (zad1.dict_set k a' t) = s1 ++ (k, a') :: s2.
Proof.
  intros Hnd Hin.
  assert (Hins : In (k, a) (zad1.sorted t))
    by (eapply Permutation_in; [symmetry; apply sorted_perm | exact Hin]).
  apply in_split in Hins. destruct Hins as (s1 & s2 & Hs).
  pose proof (sorted_ascending t Hnd) as Hasc. rewrite Hs in Hasc.
  pose proof (ascending_keys_NoDup Hasc) as Hnds.
  pose proof (keys_split_absent _ _ _ _ Hnds) as Hk1.
  exists s1, s2. split; [exact Hs|]. split; [exact Hk1|].
  pose proof (sorted_perm t) as Hp. rewrite Hs in Hp.
  split.
  - apply Permutation_cons_inv with (a := (k, a)).
    rewrite <- (without_day_perm k a t Hnd Hin).
    rewrite <- Hp. symmetry. apply Permutation_middle.
  - intros a'.
    destruct (in_split _ _ Hin) as (t1 & t2 & Ht). subst t.
    pose proof (keys_split_absent _ _ _ _ Hnd) as Hk.
    rewrite dict_set_old by exact Hk.
    apply sorted_unique.
    + now rewrite (keys_middle k a a').
    + apply ascending_keys. rewrite (keys_middle k a a').
      now apply ascending_keys.
    + apply Permutation_elt. symmetry in Hp.
      now apply Permutation_app_inv in Hp.
Qed.

(** Whatever the caller stored under [days_in_month + 1], the loop
    iterates over the same dict. *)
Lemma sorted_transactions_overwrite (a : A) (t : zad1.dict A) (dim : Z) :
  NoDup (zad1.keys t) -> In ((dim + 1)%Z, a) t ->
  exists s1 s2,
    zad1.sorted t = s1 ++ ((dim + 1)%Z, a) :: s2 /\
    Permutation (without_day (dim + 1) t) (s1 ++ s2) /\
    forall a',
      zad1.sorted_transactions (zad1.dict_set (dim + 1) a' t) dim
      = s1 ++ ((dim + 1)%Z, of_int 0) :: s2.
Proof.
  intros Hnd Hin.
  destruct (sorted_dict_set (dim + 1) a t Hnd Hin)
    as (s1 & s2 & Hs & Hk & Hp & Hset).
  exists s1, s2. split; [exact Hs|]. split; [exact Hp|].
  intros a'. rewrite sorted_transactions_eq.
  - rewrite Hset. now apply dict_set_old.
  - rewrite dict_set_keys; [exact Hnd|].
    apply in_map_iff. now exists ((dim + 1)%Z, a).
Qed.

Lemma dict_set_same (k : Z) (v : A) (t : zad1.dict A) :
  NoDup (zad1.keys t) -> In (k, v) t -> zad1.dict_set k v t = t.
Proof.
  intros Hnd Hin. destruct (in_split _ _ Hin) as (t1 & t2 & ->).
  apply dict_set_old. eapply keys_split_absent. exact Hnd.
Qed.

End Overwrite.

(** C9.  When the caller's mapping already holds the key
    [days_in_month + 1], the routine stores the zero amount under that
    key of its sorted copy, in place: no entry is added, the only amount
    the loop finds under that key is 0, the results are the same
    whatever amount the caller had stored there, and the closing balance
    is the starting balance plus the sum of the other transaction amounts
    plus the total interest. *)
Theorem C9_entry_past_month_end_dropped
    (start_balance annual_rate a : Q) (transactions : zad1.dict Q)
    (days_in_month : Z) :
  NoDup (zad1.keys transactions) ->
  In ((days_in_month + 1)%Z, a) transactions ->
  zad1.keys (zad1.sorted_transactions transactions days_in_month)
  = zad1.keys (zad1.sorted transactions) /\
  (forall v,
     In ((days_in_month + 1)%Z, v)
        (zad1.sorted_transactions transactions days_in_month) ->
     v = 0) /\
  (forall a',
     zad1.calculate_monthly_interest start_balance
       (zad1.dict_set (days_in_month + 1) a' transactions)
       days_in_month annual_rate
     = zad1.calculate_monthly_interest start_balance transactions
         days_in_month annual_rate) /\
  exists total_interest closing_balance,
    zad1.calculate_monthly_interest start_balance transactions
      days_in_month annual_rate
    = Ok (total_interest, closing_balance) /\
    closing_balance
    == start_balance
       + amounts_sum (without_day (days_in_month + 1) transactions)
       + total_interest.
Proof.
  intros Hnd Hin.
  assert (Hkey : In (days_in_month + 1)%Z
                    (zad1.keys (zad1.sorted transactions))).
  { rewrite sorted_keys_in. apply in_map_iff.
    now exists ((days_in_month + 1)%Z, a). }
  destruct (sorted_transactions_overwrite a transactions days_in_month
              Hnd Hin) as (s1 & s2 & Hs & Hp & Hset).
  assert (Hst : zad1.sorted_transactions transactions days_in_month
                = s1 ++ ((days_in_month + 1)%Z, of_int 0) :: s2).
  { rewrite <- (Hset a). now rewrite dict_set_same. }
  split; [|split; [|split]].
  - rewrite sorted_transactions_eq by exact Hnd. now apply dict_set_keys.
  - intros v Hv. rewrite sorted_transactions_eq in Hv by exact Hnd.
    apply dict_set_lookup in Hv; [exact Hv|].
    now apply ascending_keys_NoDup, sorted_ascending.
  - intros a'. unfold zad1.calculate_monthly_interest.
    now rewrite Hset, Hst.
  - rewrite monthly_interest_Q. cbv zeta. eexists _, _.
    split; [reflexivity|].
    rewrite accrue_balance, Hst, amounts_sum_app. simpl.
    rewrite (amounts_sum_perm Hp), amounts_sum_app. ring.
Qed.

Lemma C9_witness :
  zad1.keys (zad1.sorted_transactions transactions_past_end 30)
  = zad1.keys (zad1.sorted transactions_past_end) /\
  (forall v,
     In ((30 + 1)%Z, v) (zad1.sorted_transactions transactions_past_end 30) ->
     v = 0) /\
  (forall a',
     zad1.calculate_monthly_interest 100000
       (zad1.dict_set (30 + 1) a' transactions_past_end) 30 (5 # 100)
     = zad1.calculate_monthly_interest 100000 transactions_past_end 30
         (5 # 100)) /\
  exists total_interest closing_balance,
    zad1.calculate_monthly_interest 100000 transactions_past_end 30
      (5 # 100)
    = Ok (total_interest, closing_balance) /\
    closing_balance
    == 100000 + amounts_sum (without_day (30 + 1) transactions_past_end)
       + total_interest.
Proof.
  apply (@C9_entry_past_month_end_dropped 100000 (5 # 100) 700
           transactions_past_end 30).
  - repeat constructor; simpl; intuition discriminate.
  - left. reflexivity.
Defined.

(* ----------------------------------------------------------------- *)
(** ** Day-weighted interest *)

Lemma map_seq_from (f : nat -> Z) (a b : nat) :
  map f (seq a b) = map (fun i => f (a + i)%nat) (seq 0 b).
Proof.
  revert a. induction b as [|b IH]; intros a; [reflexivity|].
  cbn [seq map]. rewrite Nat.add_0_r. f_equal.
  rewrite IH, <- seq_shift, map_map. apply map_ext.
  intros i. f_equal. lia.
Qed.

Lemma range_split (lo mid hi : Z) :
  (lo <= mid <= hi)%Z -> range lo hi = range lo mid ++ range mid hi.
Proof.
  intros Hm. unfold range.
  replace (Z.to_nat (hi - lo))
    with (Z.to_nat (mid - lo) + Z.to_nat (hi - mid))%nat by lia.
  rewrite seq_app, map_app. f_equal.
  rewrite map_seq_from. apply map_ext. intros i. lia.
Qed.

Lemma range_bounds (lo hi j : Z) : In j (range lo hi) -> (lo <= j < hi)%Z.
Proof.
  unfold range. intros Hj. apply in_map_iff in Hj.
  destruct Hj as (i & <- & Hi). apply in_seq in Hi. lia.
Qed.

Lemma sum_over_app (f : Z -> Q) (l l' : list Z) :
  sum_over f (l ++ l') == sum_over f l + sum_over f l'.
Proof.
  unfold sum_over. induction l as [|j l IH]; simpl; [ring|].
  rewrite IH. ring.
Qed.

Lemma sum_over_ext (f g : Z -> Q) (l : list Z) :
  (forall j, In j l -> f j == g j) -> sum_over f l == sum_over g l.
Proof.
  unfold sum_over. induction l as [|j l IH]; simpl; intros Hfg;
    [reflexivity|].
  rewrite IH by (intros i Hi; apply Hfg; now right).
  rewrite (Hfg j) by now left. reflexivity.
Qed.

Lemma sum_over_const (c : Q) (l : list Z) :
  sum_over (fun _ => c) l == c * inject_Z (Z.of_nat (length l)).
Proof.
  unfold sum_over. induction l as [|j l IH].
  - simpl. ring.
  - change (length (j :: l)) with (S (length l)).
    rewrite inject_Z_succ. simpl. rewrite IH. ring.
Qed.

Lemma filter_none (p : Z * Q -> bool) (l : zad1.dict Q) :
  (forall e, In e l -> p e = false) -> filter p l = [].
Proof.
  induction l as [|e l IH]; simpl; intros Hp; [reflexivity|].
  rewrite (Hp e) by now left. apply IH. intros e' He'. apply Hp. now right.
Qed.

(** The sum over the sub-periods is the sum over the days. *)
Lemma subperiods_by_day (daily_rate : Q) (dim : Z) (l : zad1.dict Q) :
  forall (balance : Q) (cursor : Z),
  ascending l ->
  (forall d, In d (zad1.keys l) -> (cursor + 1 <= d <= dim)%Z) ->
  (cursor <= dim)%Z ->
  subperiod_interest daily_rate (subperiods balance cursor l dim)
  == sum_over (fun j => balance_on balance l j * daily_rate)
              (range (cursor + 1) (dim + 1)).
Proof.
  induction l as [|[day amount] l IH]; intros balance cursor Hasc Hkeys Hdim.
  - cbn [subperiods subperiod_interest fold_right fst snd].
    rewrite (sum_over_ext _ (fun _ => balance * daily_rate)).
    + rewrite sum_over_const, range_length.
      replace (Z.of_nat (Z.to_nat (dim + 1 - (cursor + 1))))
        with (dim - cursor)%Z by lia.
      ring.
    + intros j _. unfold balance_on. simpl. ring.
  - apply StronglySorted_inv in Hasc. destruct Hasc as [Hasc Hall].
    rewrite Forall_forall in Hall.
    pose proof (Hkeys day ltac:(now left)) as Hday.
    cbn [subperiods subperiod_interest fold_right fst snd].
    change (fold_right _ 0 (subperiods (balance + amount) (day - 1) l dim))
      with (subperiod_interest daily_rate
              (subperiods (balance + amount) (day - 1) l dim)).
    rewrite IH.
    + rewrite (@range_split (cursor + 1)%Z day (dim + 1)%Z) by lia.
      rewrite sum_over_app.
      rewrite (sum_over_ext
                 (fun j => balance_on balance ((day, amount) :: l) j
                           * daily_rate)
                 (fun _ => balance * daily_rate)
                 (range (cursor + 1) day)).
      * rewrite sum_over_const, range_length.
        replace (Z.of_nat (Z.to_nat (day - (cursor + 1))))
          with (day - 1 - cursor)%Z by lia.
        replace (day - 1 + 1)%Z with day by lia.
        rewrite (sum_over_ext
                   (fun j => balance_on balance ((day, amount) :: l) j
                             * daily_rate)
                   (fun j => balance_on (balance + amount) l j * daily_rate)
                   (range day (dim + 1))).
        -- ring.
        -- intros j Hj. apply range_bounds in Hj.
           unfold balance_on. cbn [filter fst].
           destruct (Z.leb_spec day j) as [_|Hlt]; [|lia].
           simpl. ring.
      * intros j Hj. apply range_bounds in Hj.
        unfold balance_on. rewrite filter_none; [simpl; ring|].
        intros [d v] [[= <- <-]|Hin]; simpl.
        -- apply Z.leb_gt. lia.
        -- specialize (Hall _ Hin). simpl in Hall. apply Z.leb_gt. lia.
    + exact Hasc.
    + intros d Hd. apply in_map_iff in Hd. destruct Hd as ([d' v] & <- & Hin).
      specialize (Hall _ Hin). simpl in Hall.
      assert (Hd' : In d' (zad1.keys ((day, amount) :: l)))
        by (right; apply in_map_iff; now exists (d', v)).
      specialize (Hkeys _ Hd'). simpl. lia.
    + lia.
Qed.

Lemma filter_perm (p : Z * Q -> bool) (l l' : zad1.dict Q) :
  Permutation l l' -> Permutation (filter p l) (filter p l').
Proof.
  induction 1 as [|x l l' Hp IH|x y l|l l' l'' Hp1 IH1 Hp2 IH2]; simpl.
  - constructor.
  - destruct (p x); [now constructor | exact IH].
  - destruct (p x), (p y); try reflexivity. apply perm_swap.
  - now rewrite IH1.
Qed.

Lemma balance_on_perm (start_balance : Q) (l l' : zad1.dict Q) (j : Z) :
  Permutation l l' -> balance_on start_balance l j == balance_on start_balance l' j.
Proof.
  intros Hp. unfold balance_on.
  rewrite (amounts_sum_perm (filter_perm _ Hp)).
  reflexivity.
Qed.

(** The total interest is day-weighted: it is one day of interest, at
    [annual_rate / 365], on the balance held on each day of the month,
    where a transaction counts from its own day on. *)
Theorem total_interest_day_weighted
    (start_balance annual_rate : Q) (transactions : zad1.dict Q)
    (days_in_month : Z) :
  NoDup (zad1.keys transactions) ->
  in_month transactions days_in_month ->
  (0 < days_in_month)%Z ->
  exists total_interest closing_balance,
    zad1.calculate_monthly_interest start_balance transactions
      days_in_month annual_rate
    = Ok (total_interest, closing_balance) /\
    total_interest
    == day_weighted_interest start_balance transactions days_in_month
         annual_rate.
Proof.
  intros Hnd Hin Hdim. rewrite monthly_interest_Q. cbv zeta.
  eexists _, _. split; [reflexivity|].
  rewrite sorted_transactions_in_month
    by (exact Hnd || (intros d Hd; apply Hin in Hd; lia)).
  rewrite accrue_interest.
  - simpl zad1.total_interest. simpl zad1.current_balance.
    simpl zad1.processed_through_day.
    rewrite subperiods_by_day.
    + unfold day_weighted_interest. q_ops.
      change (inject_Z 0) with 0. rewrite Qplus_0_l.
      apply sum_over_ext. intros j _.
      now rewrite (balance_on_perm start_balance j (sorted_perm transactions)).
    + now apply sorted_ascending.
    + intros d Hd. rewrite sorted_keys_in in Hd. apply Hin in Hd. lia.
    + lia.
  - now apply sorted_ascending.
  - intros d Hd. rewrite sorted_keys_in in Hd. apply Hin in Hd. simpl. lia.
  - simpl. lia.
Qed.

Lemma total_interest_day_weighted_witness :
  exists total_interest closing_balance,
    zad1.calculate_monthly_interest 100000 transactions_oct 31 (5 # 100)
    = Ok (total_interest, closing_balance) /\
    total_interest
    == day_weighted_interest 100000 transactions_oct 31 (5 # 100).
Proof.
  apply (@total_interest_day_weighted 100000 (5 # 100) transactions_oct 31).
  - repeat constructor; simpl; intuition discriminate.
  - intros d Hd. simpl in Hd.
    destruct Hd as [<-|[<-|[<-|[]]]]; split; discriminate.
  - reflexivity.
Defined.

(* ================================================================= *)
(** * Day keys outside the month *)

Lemma fold_min_unique (ks : list Z) (b m : Z) :
  (m <= b)%Z -> (forall k, In k ks -> (m <= k)%Z) -> m = b \/ In m ks ->
  m = fold_right Z.min b ks.
Proof.
  intros Hb Hall Hin.
  assert (Hle : (m <= fold_right Z.min b ks)%Z).
  { clear Hin. induction ks as [|k ks IH]; simpl; [exact Hb|].
    apply Z.min_glb; [apply Hall; now left | apply IH].
    intros k' Hk'. apply Hall. now right. }
  assert (Hge : (fold_right Z.min b ks <= m)%Z).
  { destruct Hin as [->|Hin].
    - clear. induction ks as [|k ks IH]; simpl; lia.
    - clear - Hin. induction ks as [|k ks IH]; simpl; [destruct Hin|].
      destruct Hin as [->|Hin]; [lia|]. specialize (IH Hin). lia. }
  lia.
Qed.

Lemma fold_max_unique (ks : list Z) (b m : Z) :
  (b <= m)%Z -> (forall k, In k ks -> (k <= m)%Z) -> m = b \/ In m ks ->
  m = fold_right Z.max b ks.
Proof.
  intros Hb Hall Hin.
  assert (Hge : (fold_right Z.max b ks <= m)%Z).
  { clear Hin. induction ks as [|k ks IH]; simpl; [exact Hb|].
    apply Z.max_lub; [apply Hall; now left | apply IH].
    intros k' Hk'. apply Hall. now right. }
  assert (Hle : (m <= fold_right Z.max b ks)%Z).
  { destruct Hin as [->|Hin].
    - clear. induction ks as [|k ks IH]; simpl; lia.
    - clear - Hin. induction ks as [|k ks IH]; simpl; [destruct Hin|].
      destruct Hin as [->|Hin]; [lia|]. specialize (IH Hin). lia. }
  lia.
Qed.

(** After the loop has run over days in ascending order, the cursor is
    at the day before the last of them. *)
Lemma accrue_cursor (daily_rate : Q) (l : zad1.dict Q) :
  ascending l -> l <> [] ->
  forall st : zad1.loop_state Q,
  let h := (zad1.processed_through_day
              (fold_left (zad1.accrue_body daily_rate) l st) + 1)%Z in
  In h (zad1.keys l) /\ forall k, In k (zad1.keys l) -> (k <= h)%Z.
Proof.
  induction l as [|[d a] l IH]; intros Hasc Hne st; [congruence|].
  apply StronglySorted_inv in Hasc. destruct Hasc as [Hasc Hall].
  rewrite Forall_forall in Hall. cbv zeta.
  destruct l as [|e l].
  - simpl. split; [left; lia|]. intros k [<-|[]]. lia.
  - specialize (IH Hasc ltac:(discriminate)
                  (zad1.accrue_body daily_rate st (d, a))).
    cbv zeta in IH. destruct IH as [Hin Hmax].
    change (fold_left (zad1.accrue_body daily_rate) ((d, a) :: e :: l) st)
      with (fold_left (zad1.accrue_body daily_rate) (e :: l)
              (zad1.accrue_body daily_rate st (d, a))).
    set (h := (zad1.processed_through_day _ + 1)%Z) in *.
    split; [now right|].
    intros k [<-|Hk]; [|now apply Hmax].
    simpl. specialize (Hall e ltac:(now left)). simpl in Hall.
    specialize (Hmax (fst e) ltac:(now left)). lia.
Qed.

Lemma filter_all (p : Z * Q -> bool) (l : zad1.dict Q) :
  (forall e, In e l -> p e = true) -> filter p l = l.
Proof.
  induction l as [|e l IH]; simpl; intros Hp; [reflexivity|].
  rewrite (Hp e) by now left. f_equal. apply IH.
  intros e' He'. apply Hp. now right.
Qed.

(** The interest the loop adds over days in ascending order: one day of
    interest on the balance of each day from the cursor, or from the
    first day when that is earlier, to the last day. *)
Lemma accrue_window (daily_rate : Q) (l : zad1.dict Q) :
  ascending l ->
  forall st : zad1.loop_state Q,
  zad1.total_interest (fold_left (zad1.accrue_body daily_rate) l st)
  == zad1.total_interest st
     + sum_over
         (fun j => balance_on (zad1.current_balance st) l j * daily_rate)
         (range
            match l with
            | [] => (zad1.processed_through_day st + 1)%Z
            | e :: _ => Z.min (zad1.processed_through_day st + 1) (fst e)
            end
            (zad1.processed_through_day
               (fold_left (zad1.accrue_body daily_rate) l st) + 1)).
Proof.
  induction l as [|[d a] l IH]; intros Hasc st.
  - simpl fold_left. unfold range.
    replace (Z.to_nat _) with 0%nat by lia. simpl. ring.
  - pose proof Hasc as Hasc0.
    apply StronglySorted_inv in Hasc. destruct Hasc as [Hasc Hall].
    rewrite Forall_forall in Hall.
    change (fold_left (zad1.accrue_body daily_rate) ((d, a) :: l) st)
      with (fold_left (zad1.accrue_body daily_rate) l
              (zad1.accrue_body daily_rate st (d, a))).
    rewrite (IH Hasc).
    set (st' := zad1.accrue_body daily_rate st (d, a)).
    set (p := zad1.processed_through_day st).
    set (hi := (zad1.processed_through_day
                  (fold_left (zad1.accrue_body daily_rate) l st') + 1)%Z).
    assert (Hlo : match l with
                  | [] => (zad1.processed_through_day st' + 1)%Z
                  | e :: _ => Z.min (zad1.processed_through_day st' + 1)
                                (fst e)
                  end = d).
    { destruct l as [|e l]; simpl; [lia|].
      specialize (Hall e ltac:(now left)). simpl in Hall. lia. }
    rewrite Hlo.
    assert (Hhi : (d <= hi)%Z).
    { destruct l as [|e l]; [subst hi; simpl; lia|].
      destruct (@accrue_cursor daily_rate (e :: l) Hasc ltac:(discriminate)
                  st') as [_ Hmax].
      specialize (Hmax (fst e) ltac:(now left)).
      specialize (Hall e ltac:(now left)). simpl in Hall.
      subst hi. lia. }
    cbn [fst].
    rewrite (@range_split (Z.min (p + 1) d) d hi) by lia.
    rewrite sum_over_app.
    rewrite (sum_over_ext
               (fun j => balance_on (zad1.current_balance st) ((d, a) :: l) j
                         * daily_rate)
               (fun _ => zad1.current_balance st * daily_rate)
               (range (Z.min (p + 1) d) d)).
    + rewrite (sum_over_ext
                 (fun j => balance_on (zad1.current_balance st)
                             ((d, a) :: l) j * daily_rate)
                 (fun j => balance_on (zad1.current_balance st') l j
                           * daily_rate)
                 (range d hi)).
      * rewrite sum_over_const, range_length.
        subst st'. cbn [zad1.accrue_body zad1.total_interest]. fold p.
        destruct (Z.gtb_spec (d - 1 - p) 0) as [Hgt|Hle].
        -- replace (Z.of_nat (Z.to_nat (d - Z.min (p + 1) d)))
             with (d - 1 - p)%Z by lia.
           q_ops. ring.
        -- replace (Z.of_nat (Z.to_nat (d - Z.min (p + 1) d)))
             with 0%Z by lia.
           change (inject_Z 0) with 0. ring.
      * intros j Hj. apply range_bounds in Hj.
        subst st'. cbn [zad1.accrue_body zad1.current_balance]. q_ops.
        unfold balance_on. cbn [filter fst].
        destruct (Z.leb_spec d j) as [_|Hlt]; [|lia].
        simpl. ring.
    + intros j Hj. apply range_bounds in Hj.
      unfold balance_on. rewrite filter_none; [simpl; ring|].
      intros [d' v] [[= <- <-]|Hin]; simpl.
      * apply Z.leb_gt. lia.
      * specialize (Hall _ Hin). simpl in Hall. apply Z.leb_gt. lia.
Qed.

Lemma balance_on_zero_entry (start_balance : Q) (k j : Z) (l : zad1.dict Q) :
  balance_on start_balance ((k, 0) :: l) j == balance_on start_balance l j.
Proof.
  unfold balance_on. cbn [filter fst].
  destruct (k <=? j)%Z; simpl; ring.
Qed.

(** The routine checks no day key.  Whatever the keys are, as long as
    they are distinct, interest accrues for every day from
    [accrual_start] (day 1, or the earliest key when that is below 1) to
    the day before [accrual_end] (the end of the month, or the day before
    the latest key when that is beyond it), on the starting balance plus
    every transaction dated on or before that day; the transaction dated
    [days_in_month + 1], if any, counts for nothing. *)
Theorem accrual_window
    (start_balance annual_rate : Q) (transactions : zad1.dict Q)
    (days_in_month : Z) :
  NoDup (zad1.keys transactions) ->
  exists total_interest closing_balance,
    zad1.calculate_monthly_interest start_balance transactions
      days_in_month annual_rate
    = Ok (total_interest, closing_balance) /\
    total_interest
    == sum_over
         (fun j =>
            balance_on start_balance
              (without_day (days_in_month + 1) transactions) j
            * (annual_rate / 365))
         (range (accrual_start transactions)
                (accrual_end transactions days_in_month)) /\
    closing_balance
    == start_balance
       + amounts_sum (without_day (days_in_month + 1) transactions)
       + total_interest.
Proof.
  intros Hnd. rewrite monthly_interest_Q. cbv zeta.
  eexists _, _. split; [reflexivity|].
  set (dr := annual_rate / 365).
  set (t' := without_day (days_in_month + 1) transactions).
  pose proof (sorted_ascending transactions Hnd) as Hasc.
  destruct (in_dec Z.eq_dec (days_in_month + 1)%Z (zad1.keys transactions))
    as [Hkey|Hkey].
  - (* the key [days_in_month + 1] is taken: its amount is overwritten *)
    apply in_map_iff in Hkey. destruct Hkey as ([k a] & Ek & Hin).
    simpl in Ek. subst k.
    destruct (sorted_transactions_overwrite a transactions days_in_month
                Hnd Hin) as (s1 & s2 & Hs & Hp & Hset).
    assert (Hst : zad1.sorted_transactions transactions days_in_month
                  = s1 ++ ((days_in_month + 1)%Z, 0) :: s2).
    { change (0 : Q) with (@of_int Q Q_Number 0%Z).
      rewrite <- (Hset a). now rewrite dict_set_same. }
    assert (Hkeys : zad1.keys (s1 ++ ((days_in_month + 1)%Z, 0) :: s2)
                    = zad1.keys (zad1.sorted transactions)).
    { rewrite Hs. apply keys_middle. }
    assert (Hasc' : ascending (s1 ++ ((days_in_month + 1)%Z, 0) :: s2)).
    { apply ascending_keys. rewrite Hkeys. now apply ascending_keys. }
    assert (Hperm : Permutation (s1 ++ ((days_in_month + 1)%Z, 0) :: s2)
                      (((days_in_month + 1)%Z, 0) :: t')).
    { rewrite <- Permutation_middle. constructor. now symmetry. }
    rewrite Hst. set (l := s1 ++ ((days_in_month + 1)%Z, 0) :: s2) in *.
    assert (Hmem : forall k, In k (zad1.keys l)
                             <-> In k (zad1.keys transactions)).
    { intros k. rewrite Hkeys. apply sorted_keys_in. }
    split.
    + rewrite (accrue_window dr Hasc').
      cbn [zad1.loop_init zad1.total_interest zad1.current_balance
           zad1.processed_through_day].
      destruct (@accrue_cursor dr l Hasc'
                  ltac:(subst l; destruct s1; discriminate)
                  (zad1.loop_init start_balance)) as [Hh Hmax].
      set (h := (_ + 1)%Z) in Hh, Hmax |- *.
      assert (Eh : h = accrual_end transactions days_in_month).
      { apply fold_max_unique.
        - apply Hmax. subst l. unfold zad1.keys. rewrite map_app.
          apply in_or_app. right. now left.
        - intros k Hk. apply Hmax, Hmem, Hk.
        - right. now apply Hmem. }
      assert (El : match l with
                   | [] => (0 + 1)%Z
                   | e :: _ => Z.min (0 + 1) (fst e)
                   end = accrual_start transactions).
      { destruct l as [|e l0] eqn:El; [destruct s1; discriminate|].
        apply fold_min_unique.
        - lia.
        - intros k Hk. apply Hmem in Hk. destruct Hk as [<-|Hk]; [lia|].
          apply StronglySorted_inv in Hasc'. destruct Hasc' as [_ Hall].
          rewrite Forall_forall in Hall.
          apply in_map_iff in Hk. destruct Hk as (e' & <- & He').
          specialize (Hall _ He'). lia.
        - destruct (Z.min_spec (0 + 1) (fst e)) as [[_ ->]|[_ ->]];
            [now left|].
          right. apply Hmem. now left. }
      rewrite El, Eh. q_ops. change (inject_Z 0) with 0. rewrite Qplus_0_l.
      apply sum_over_ext. intros j _.
      rewrite (balance_on_perm start_balance j Hperm).
      now rewrite balance_on_zero_entry.
    + rewrite accrue_balance.
      cbn [zad1.loop_init zad1.current_balance].
      rewrite (amounts_sum_perm Hperm). simpl. q_ops. ring.
  - (* the key is free: the zero entry goes last *)
    rewrite sorted_transactions_eq by exact Hnd.
    rewrite dict_set_new by (now rewrite sorted_keys_in).
    rewrite fold_left_app. cbn [fold_left].
    assert (Et' : t' = transactions) by now apply without_day_absent.
    rewrite Et'. clear t' Et'.
    pose proof (sorted_perm transactions) as Hperm.
    assert (Hmem : forall k, In k (zad1.keys (zad1.sorted transactions))
                             <-> In k (zad1.keys transactions))
      by (intros k; apply sorted_keys_in).
    pose proof (accrue_balance dr (zad1.sorted transactions)
                  (zad1.loop_init start_balance)) as Hbal.
    rewrite (amounts_sum_perm Hperm) in Hbal.
    pose proof (accrue_window dr Hasc (zad1.loop_init start_balance)) as Hw.
    cbn [zad1.loop_init zad1.total_interest zad1.current_balance
         zad1.processed_through_day] in Hw, Hbal.
    q_ops. change (inject_Z 0) with 0 in *.
    destruct (zad1.sorted transactions) as [|e l0] eqn:El.
    + (* no transaction at all *)
      assert (Et : transactions = [])
        by (apply Permutation_nil; exact Hperm).
      rewrite Et. cbn. unfold accrual_start, accrual_end.
      cbn [zad1.keys map fold_right]. change (inject_Z 0) with 0.
      rewrite (sum_over_ext _ (fun _ => start_balance * dr))
        by (intros j _; unfold balance_on; simpl; ring).
      rewrite sum_over_const, range_length.
      split.
      * destruct (Z.gtb_spec (days_in_month + 1 - 1 - 0) 0) as [Hgt|Hle].
        -- replace (Z.of_nat (Z.to_nat (days_in_month + 1 - 1)))
             with (days_in_month + 1 - 1 - 0)%Z by lia.
           ring.
        -- replace (Z.of_nat (Z.to_nat (days_in_month + 1 - 1)))
             with 0%Z by lia.
           change (inject_Z 0) with 0. ring.
      * ring.
    + destruct (@accrue_cursor dr (e :: l0) Hasc ltac:(discriminate)
                  (zad1.loop_init start_balance)) as [Hh Hmax].
      set (st := fold_left (zad1.accrue_body dr) (e :: l0)
                           (zad1.loop_init start_balance)) in *.
      set (p := zad1.processed_through_day st) in *.
      cbn [fst] in Hw.
      assert (Elo : Z.min (0 + 1) (fst e) = accrual_start transactions).
      { apply fold_min_unique.
        - lia.
        - intros k Hk. apply Hmem in Hk.
          destruct Hk as [<-|Hk]; [lia|].
          apply StronglySorted_inv in Hasc. destruct Hasc as [_ Hall].
          rewrite Forall_forall in Hall.
          apply in_map_iff in Hk. destruct Hk as (e' & <- & He').
          specialize (Hall _ He'). lia.
        - destruct (Z.min_spec (0 + 1) (fst e)) as [[_ ->]|[_ ->]];
            [now left|].
          right. apply Hmem. now left. }
      assert (Ehi : Z.max (days_in_month + 1) (p + 1)
                    = accrual_end transactions days_in_month).
      { apply fold_max_unique.
        - lia.
        - intros k Hk. apply Hmem, Hmax in Hk. lia.
        - destruct (Z.max_spec (days_in_month + 1) (p + 1))
            as [[_ ->]|[_ ->]]; [right; now apply Hmem | now left]. }
      assert (Hfirst : (Z.min (0 + 1) (fst e) <= p + 1)%Z).
      { specialize (Hmax (fst e) ltac:(now left)). lia. }
      cbn [zad1.accrue_body zad1.total_interest zad1.current_balance].
      q_ops. change (inject_Z 0) with 0.
      split;
        [|destruct (days_in_month + 1 - 1 - zad1.processed_through_day st >? 0)%Z;
          rewrite Hbal; ring].
      rewrite <- Elo, <- Ehi.
      rewrite (@range_split (Z.min (0 + 1) (fst e)) (p + 1)
                 (Z.max (days_in_month + 1) (p + 1))) by lia.
      rewrite sum_over_app.
      rewrite (sum_over_ext
                 (fun j => balance_on start_balance transactions j * dr)
                 (fun _ => zad1.current_balance st * dr)
                 (range (p + 1) (Z.max (days_in_month + 1) (p + 1)))).
      * rewrite sum_over_const, range_length.
        rewrite (sum_over_ext
                   (fun j => balance_on start_balance transactions j * dr)
                   (fun j => balance_on start_balance (e :: l0) j * dr)
                   (range (Z.min (0 + 1) (fst e)) (p + 1)))
          by (intros j _;
              now rewrite (balance_on_perm start_balance j Hperm)).
        fold p.
        replace (days_in_month + 1 - 1 - p)%Z with (days_in_month - p)%Z
          by lia.
        destruct (Z.gtb_spec (days_in_month - p) 0) as [Hgt|Hle].
        -- replace (Z.of_nat (Z.to_nat
                      (Z.max (days_in_month + 1) (p + 1) - (p + 1))))
             with (days_in_month - p)%Z by lia.
           rewrite Hw. ring.
        -- replace (Z.of_nat (Z.to_nat
                      (Z.max (days_in_month + 1) (p + 1) - (p + 1))))
             with 0%Z by lia.
           rewrite Hw. change (inject_Z 0) with 0. ring.
      * intros j Hj. apply range_bounds in Hj.
        rewrite Hbal. unfold balance_on.
        rewrite filter_all; [reflexivity|].
        intros [k v] Hkv. simpl. apply Z.leb_le.
        assert (Hk : In k (zad1.keys transactions))
          by (apply in_map_iff; now exists (k, v)).
        apply Hmem, Hmax in Hk. lia.
Qed.

Lemma accrual_window_witness :
  exists total_interest closing_balance,
    zad1.calculate_monthly_interest 100000 transactions_outside 31 (5 # 100)
    = Ok (total_interest, closing_balance) /\
    total_interest
    == sum_over
         (fun j =>
            balance_on 100000 (without_day (31 + 1) transactions_outside) j
            * ((5 # 100) / 365))
         (range (accrual_start transactions_outside)
                (accrual_end transactions_outside 31)) /\
    closing_balance
    == 100000 + amounts_sum (without_day (31 + 1) transactions_outside)
       + total_interest.
Proof.
  apply (@accrual_window 100000 (5 # 100) transactions_outside 31).
  repeat constructor; simpl; intuition discriminate.
Defined.
